(** * pandas-to-postgres: the batch dispatcher of [src/batch/batch_insert.py]

    A shallow embedding of class [BatchInsert]: the data frames it reads, the
    coroutines it creates, the event loop that interleaves them, and the
    properties of partitioning, dispatch, resource handling and clean-up. *)

From stdpp Require Import base list gmap strings pretty.
From Stdlib Require Import ZArith Lia Ascii.

Local Open Scope string_scope.
Local Open Scope Z_scope.

(** ** Exceptions and results *)

(** The exception kinds that can reach [execute].  [CancelledError] derives
    from [BaseException] only; every other kind derives from [Exception]. *)
Inductive Exn : Type :=
| InvalidArgument
| ValueError
| KeyError
| TypeError
| AttributeError
| PoolTimeout
| SerializationError
| TransferProtocolError
| PoolLifecycleError
| CancelledError.

#[global] Instance Exn_eq_dec : EqDecision Exn.
Proof. solve_decision. Defined.

(** [isinstance(e, Exception)] *)
Definition is_Exception (e : Exn) : bool :=
  match e with CancelledError => false | _ => true end.

Inductive result (A : Type) : Type :=
| Ok (a : A)
| Err (e : Exn).
Arguments Ok {A} a.
Arguments Err {A} e.

(** ** Data frames *)

(** A data frame: named columns in declared order (the labels of a frame are
    distinct) and rows of cells.  A cell is kept as the text pandas renders
    for it. *)
Record DataFrame : Type := mkDataFrame {
  columns : list string;
  rows : list (list string)
}.

(** [data_df.shape[0]] *)
Definition nrows (df : DataFrame) : Z := Z.of_nat (length (rows df)).

(** Python's normalisation of one slice bound against a length:
    a negative bound counts from the end, and both bounds are clamped. *)
Definition slice_bound (len i : Z) : Z :=
  if i <? 0 then Z.max 0 (i + len) else Z.min i len.

(** [l[a:b]] for a Python sequence. *)
Definition py_slice {A : Type} (l : list A) (a b : Z) : list A :=
  let len := Z.of_nat (length l) in
  let s := slice_bound len a in
  let e := slice_bound len b in
  take (Z.to_nat (e - s)) (drop (Z.to_nat s) l).

(** [df[a:b]]: an integer slice of a data frame selects rows by position. *)
Definition df_slice (df : DataFrame) (a b : Z) : DataFrame :=
  mkDataFrame (columns df) (py_slice (rows df) a b).

(** Position of a column label. *)
Fixpoint column_index (name : string) (cols : list string) : option nat :=
  match cols with
  | [] => None
  | c :: cols' =>
      if String.eqb name c then Some 0%nat
      else S <$> column_index name cols'
  end.

(** Positions of the requested labels, in the requested order;
    [None] when a label is not a column ([KeyError]). *)
Fixpoint column_indices (names cols : list string) : option (list nat) :=
  match names with
  | [] => Some []
  | n :: names' =>
      match column_index n cols, column_indices names' cols with
      | Some i, Some idxs => Some (i :: idxs)
      | _, _ => None
      end
  end.

(** The cells of one row at the given positions. *)
Definition pick_cells (idxs : list nat) (row : list string) : list string :=
  map (fun i => nth i row "") idxs.

(** [df[col_names]] with a list of labels: a new frame with those columns. *)
Definition df_project (df : DataFrame) (col_names : list string) : result DataFrame :=
  match column_indices col_names (columns df) with
  | Some idxs => Ok (mkDataFrame col_names (map (pick_cells idxs) (rows df)))
  | None => Err KeyError
  end.

(** ** CSV rendering: [to_csv(buf, header=False, index=False)] *)

Definition dquote : ascii := "034"%char.
Definition comma : ascii := ","%char.
Definition newline : ascii := "010"%char.
Definition carriage_return : ascii := "013"%char.

Fixpoint string_mem (c : ascii) (s : string) : bool :=
  match s with
  | EmptyString => false
  | String d s' => if Ascii.eqb c d then true else string_mem c s'
  end.

(** A field is quoted when it holds the delimiter, the quote character or a
    line break (csv.QUOTE_MINIMAL). *)
Definition needs_quote (field : string) : bool :=
  string_mem comma field || string_mem dquote field
  || string_mem newline field || string_mem carriage_return field.

(** Inside a quoted field every quote character is written twice. *)
Fixpoint double_quotes (s : string) : string :=
  match s with
  | EmptyString => EmptyString
  | String c s' =>
      if Ascii.eqb c dquote then String dquote (String dquote (double_quotes s'))
      else String c (double_quotes s')
  end.

Definition csv_field (field : string) : string :=
  if needs_quote field
  then String dquote (double_quotes field +:+ String dquote EmptyString)
  else field.

(** One record: the fields separated by commas and closed by a line break.
    A record made of a single empty field is written as a pair of quotes. *)
Definition csv_line (row : list string) : string :=
  match row with
  | [EmptyString] => String dquote (String dquote (String newline EmptyString))
  | _ => String.concat "," (map csv_field row) +:+ String newline EmptyString
  end.

(** The text of the frame: one record per row, in row order; no header line
    ([header=False]) and no index column ([index=False]). *)
Definition to_csv (df : DataFrame) : string :=
  String.concat "" (map csv_line (rows df)).

(** ** Row ranges *)

(** Modelled from the spec: [get_ranges] lives in [src/utils/dataframe_utils.py],
    which is not among the sources.  Section 4.1: fails with [InvalidArgument]
    if [batch_size <= 0]; otherwise returns half-open ranges of length
    [batch_size] in order, the final range possibly shorter, covering
    [0, total_rows) exactly; no range for [total_rows = 0]. *)
Fixpoint ranges_from (fuel : nat) (start total_rows batch_size : Z) : list (Z * Z) :=
  match fuel with
  | O => []
  | S fuel' =>
      if start <? total_rows
      then (start, Z.min (start + batch_size) total_rows)
             :: ranges_from fuel' (start + batch_size) total_rows batch_size
      else []
  end.

(** Modelled from the spec: the partitioner [get_ranges(total_rows, batch_size)]
    of section 4.1 (its module is not among the sources). *)
Definition get_ranges (total_rows batch_size : Z) : result (list (Z * Z)) :=
  if batch_size <=? 0 then Err InvalidArgument
  else Ok (ranges_from (Z.to_nat total_rows) 0 total_rows batch_size).

(** [tiles a b rs]: the ranges [rs] are non-empty, in order, and each starts
    where the previous one ends, from [a] up to [b]. *)
Inductive tiles : Z -> Z -> list (Z * Z) -> Prop :=
| tiles_nil a : tiles a a []
| tiles_cons a e b rs : a < e -> tiles e b rs -> tiles a b ((a, e) :: rs).

(** Every range but the last has length [bs]; the last has at most [bs]. *)
Fixpoint batch_lengths (bs : Z) (rs : list (Z * Z)) : Prop :=
  match rs with
  | [] => True
  | [(s, e)] => 0 < e - s <= bs
  | (s, e) :: rs' => e - s = bs /\ batch_lengths bs rs'
  end.

(** Two half-open ranges share no index. *)
Definition disjoint_ranges (r1 r2 : Z * Z) : Prop :=
  forall i, ~ (r1.1 <= i < r1.2 /\ r2.1 <= i < r2.2).

Definition in_range (i : Z) (r : Z * Z) : Prop := r.1 <= i < r.2.

(** ** Coroutines *)

(** What a coroutine of this module asks of the world outside its own frame:
    the suspension points of [bulk_load] and of the pool lifecycle methods,
    and the read of the shared field [self.data_df]. *)
Inductive Op : Type :=
| SemAcquire                              (* async with semaphore: enter *)
| SemRelease                              (* async with semaphore: exit *)
| PoolConnection (timeout : Z)            (* async with pool.connection(timeout=...): enter *)
| PoolPutConn                             (* ... exit: the connection goes back to the pool *)
| CursorEnter                             (* async with pg_session.cursor(): enter *)
| CursorExit
| CopyEnter (query : string)              (* async with acur.copy(query): enter *)
| CopyWrite (query payload : string)      (* await copy.write(payload), on the copy opened for query *)
| CopyExit
| ReadDataDf                              (* self.data_df *)
| PoolOpen (wait : bool)                  (* await self.pool.open(wait=...) *)
| PoolClose.                              (* await self.pool.close() *)

(** The value an operation hands back when it does not raise. *)
Definition answer (op : Op) : Type :=
  match op with
  | ReadDataDf => option DataFrame
  | _ => unit
  end.

(** A coroutine object: finished with a value, finished with an exception, or
    stopped at an operation with the rest of the body waiting for its outcome.
    Creating one runs none of its body. *)
Inductive Coro (R : Type) : Type :=
| Ret (r : R)
| Raise (e : Exn)
| Do (op : Op) (k : result (answer op) -> Coro R).
Arguments Ret {R} r.
Arguments Raise {R} e.
Arguments Do {R} op k.

Fixpoint bind {A B : Type} (c : Coro A) (f : A -> Coro B) : Coro B :=
  match c with
  | Ret a => f a
  | Raise e => Raise e
  | Do op k => Do op (fun r => bind (k r) f)
  end.

(** One operation; its exception, if any, is raised at that point. *)
Definition perform (op : Op) : Coro (answer op) :=
  Do op (fun r => match r with Ok a => Ret a | Err e => Raise e end).

(** [try: c finally: h].  The handler runs on every way out of [c]; an
    exception of the handler replaces the outcome of [c]. *)
Fixpoint finally {A B : Type} (c : Coro A) (h : Coro B) : Coro A :=
  match c with
  | Ret a => bind h (fun _ => Ret a)
  | Raise e => bind h (fun _ => Raise e)
  | Do op k => Do op (fun r => finally (k r) h)
  end.

(** [async with cm as x: body]: enter, run the body, exit on every way out.
    When entering raises, the body and the exit are skipped. *)
Definition async_with {A : Type} (enter exit : Op)
    (body : answer enter -> Coro A) : Coro A :=
  bind (perform enter) (fun x => finally (body x) (perform exit)).

(** ** The [retry] decorator *)

(** What one decorated call did: its outcome ([Ok None] is Python's [None],
    returned when the loop body never runs), how many times it called the
    wrapped function, and the delays it slept. *)
Record RetryRun (A : Type) : Type := mkRetryRun {
  outcome : result (option A);
  calls : nat;
  sleeps : list Z
}.
Arguments mkRetryRun {A} outcome calls sleeps.
Arguments outcome {A} r.
Arguments calls {A} r.
Arguments sleeps {A} r.

(** The loop of the [retry] package ([retry.api.__retry_internal]):
    [while _tries: try: return f() except exceptions: _tries -= 1;
    if not _tries: raise; time.sleep(_delay); _delay *= backoff].
    [f n] is the outcome of the call number [n] of the wrapped function.  The
    wrapper is an ordinary function: only an exception raised by the call
    [f()] itself is seen by its [except] clause. *)
Fixpoint retry_internal {A : Type} (f : nat -> result A) (exceptions : Exn -> bool)
    (tries : nat) (delay backoff : Z) (made : nat) (slept : list Z) : RetryRun A :=
  match tries with
  | O => mkRetryRun (Ok None) made slept
  | S tries' =>
      match f made with
      | Ok a => mkRetryRun (Ok (Some a)) (S made) slept
      | Err e =>
          if exceptions e then
            match tries' with
            | O => mkRetryRun (Err e) (S made) slept
            | S _ => retry_internal f exceptions tries' (delay * backoff) backoff
                       (S made) (slept ++ [delay])
            end
          else mkRetryRun (Err e) (S made) slept
      end
  end.

(** [@retry(exceptions, tries=..., delay=..., backoff=...)] applied to [f]. *)
Definition retry {A : Type} (exceptions : Exn -> bool) (tries : nat)
    (delay backoff : Z) (f : nat -> result A) : RetryRun A :=
  retry_internal f exceptions tries delay backoff 0%nat [].

(** Calling an [async def] function: every call returns a new coroutine
    object for the body and raises nothing; the body runs when the object is
    awaited. *)
Definition async_def {R : Type} (body : Coro R) : nat -> result (Coro R) :=
  fun _ => Ok body.

(** ** The dispatcher *)

(** The fields of a [BatchInsert] instance.  [schema] is
    [pg_conn_details.schema]; [data_df] is a reference into the heap of data
    frames, or [None]. *)
Record BatchInsert : Type := mkBatchInsert {
  batch_size : Z;
  table_name : string;
  schema : string;
  min_conn : Z;
  max_conn : Z;
  data_df : option nat
}.

(** [self.data_df = v] *)
Definition set_data_df (v : option nat) (self : BatchInsert) : BatchInsert :=
  mkBatchInsert (batch_size self) (table_name self) (schema self)
    (min_conn self) (max_conn self) v.

(** [BatchInsert.__init__]: the arguments are stored and no data frame is held. *)
Definition init (batch_size : Z) (table_name schema : string)
    (min_conn max_conn : Z) : BatchInsert :=
  mkBatchInsert batch_size table_name schema min_conn max_conn None.

(** The statement of line 86. *)
Definition copy_query (table_name col_names : string) : string :=
  "COPY " +:+ table_name +:+ " (" +:+ col_names
    +:+ ") FROM STDIN WITH (FORMAT CSV, DELIMITER ',')".

(** The body of [bulk_load] (lines 85 to 94). *)
Definition bulk_load_body (range_ : Z * Z) (table_name col_names : string) : Coro unit :=
  async_with SemAcquire SemRelease (fun _ =>
    let copy_query := copy_query table_name col_names in
    async_with (PoolConnection 60) PoolPutConn (fun _ =>
      async_with CursorEnter CursorExit (fun _ =>
        async_with (CopyEnter copy_query) CopyExit (fun _ =>
          bind (perform ReadDataDf) (fun self_data_df =>
            match self_data_df with
            | None => Raise TypeError
            | Some df =>
                let data_df := df_slice df range_.1 range_.2 in
                perform (CopyWrite copy_query (to_csv data_df))
            end))))).

(** [bulk_load] as decorated on line 83: what a call [self.bulk_load(...)] does. *)
Definition bulk_load (range_ : Z * Z) (table_name col_names : string)
    : RetryRun (Coro unit) :=
  retry is_Exception 3 2 1 (async_def (bulk_load_body range_ table_name col_names)).

(** The bodies of the pool lifecycle methods (lines 37 and 41). *)
Definition open_connection_pool_body : Coro unit := perform (PoolOpen true).
Definition close_connection_pool_body : Coro unit := perform PoolClose.

(** The lifecycle methods as decorated on lines 35 and 39. *)
Definition open_connection_pool : RetryRun (Coro unit) :=
  retry is_Exception 3 2 1 (async_def open_connection_pool_body).
Definition close_connection_pool : RetryRun (Coro unit) :=
  retry is_Exception 3 2 1 (async_def close_connection_pool_body).

(** ** The event loop *)

(** A task made by [asyncio.gather] from one coroutine, with what it holds:
    semaphore permits, pool connections, and what it has written to its copy
    channel (statement and payload). *)
Record Task : Type := mkTask {
  code : Coro unit;
  permits : nat;
  leases : nat;
  sent : list (string * string)
}.

(** The coroutine of [execute]: waiting in [gather], or over. *)
Inductive Main : Type :=
| Running
| Finished (r : result unit).

(** The state of one dispatch: the instance, the heap of data frames, the
    counter of the semaphore made on line 74, the number of connections the
    pool has handed out, the tasks, and the caller. *)
Record Loop : Type := mkLoop {
  this : BatchInsert;
  heap : gmap nat DataFrame;
  sem_value : Z;
  pool_out : Z;
  tasks : list Task;
  main : Main
}.

(** How the world answers an operation. *)
Inductive Resp : Type :=
| ROk
| RErr (e : Exn).

Definition is_ok {A : Type} (r : result A) : bool :=
  match r with Ok _ => true | Err _ => false end.

Definition resp_result (r : Resp) : result unit :=
  match r with ROk => Ok () | RErr e => Err e end.

(** The outcome the task gets, or [None] while the operation cannot complete.
    [Semaphore.acquire] completes only while the counter is positive;
    the pool hands out a connection only while fewer than [max_conn] are out;
    the two releases always complete; a wait can end with an exception
    (a timeout, a protocol error, a cancellation). *)
Definition reply (st : Loop) (op : Op) (r : Resp) : option (result (answer op)) :=
  match op return option (result (answer op)) with
  | SemAcquire =>
      match r with
      | ROk => if 0 <? sem_value st then Some (Ok ()) else None
      | RErr e => Some (Err e)
      end
  | SemRelease => Some (Ok ())
  | PoolConnection _ =>
      match r with
      | ROk => if pool_out st <? max_conn (this st) then Some (Ok ()) else None
      | RErr e => Some (Err e)
      end
  | PoolPutConn => Some (Ok ())
  | ReadDataDf => Some (Ok (data_df (this st) ≫= fun l => heap st !! l))
  | CursorEnter | CursorExit | CopyEnter _ | CopyWrite _ _ | CopyExit
  | PoolOpen _ | PoolClose => Some (resp_result r)
  end.

(** What an operation changes in the task that ran it. *)
Definition permits_after (op : Op) (ok : bool) (p : nat) : nat :=
  match op with
  | SemAcquire => if ok then S p else p
  | SemRelease => pred p
  | _ => p
  end.

Definition leases_after (op : Op) (ok : bool) (l : nat) : nat :=
  match op with
  | PoolConnection _ => if ok then S l else l
  | PoolPutConn => pred l
  | _ => l
  end.

Definition sent_after (op : Op) (ok : bool) (s : list (string * string))
    : list (string * string) :=
  match op with
  | CopyWrite q p => if ok then s ++ [(q, p)] else s
  | _ => s
  end.

Definition task_after (op : Op) (ok : bool) (c : Coro unit) (t : Task) : Task :=
  mkTask c (permits_after op ok (permits t)) (leases_after op ok (leases t))
    (sent_after op ok (sent t)).

(** What it changes in the semaphore ([release] adds one without a bound)
    and in the pool. *)
Definition sem_after (op : Op) (ok : bool) (v : Z) : Z :=
  match op with
  | SemAcquire => if ok then v - 1 else v
  | SemRelease => v + 1
  | _ => v
  end.

Definition pool_after (op : Op) (ok : bool) (n : Z) : Z :=
  match op with
  | PoolConnection _ => if ok then n + 1 else n
  | PoolPutConn => n - 1
  | _ => n
  end.

Definition is_ret (t : Task) : bool :=
  match code t with Ret _ => true | _ => false end.

Definition is_final (t : Task) : bool :=
  match code t with Do _ _ => false | _ => true end.

(** [execute] leaves [gather] with outcome [r]: [except Exception as e: raise e]
    passes the exception on as it is, and [finally] clears [self.data_df]. *)
Definition finish (r : result unit) (st : Loop) : Loop :=
  mkLoop (set_data_df None (this st)) (heap st) (sem_value st) (pool_out st)
    (tasks st) (Finished r).

(** [await asyncio.gather] on the tasks, with the default [return_exceptions=False],
    after task [i] has run: the first exception raised by a task is propagated
    at once to the awaiting caller, and the other tasks are neither cancelled
    nor waited for; without an exception the caller resumes when every task
    has returned. *)
Definition gather_wakeup (i : nat) (st : Loop) : Loop :=
  match main st with
  | Finished _ => st
  | Running =>
      match code <$> tasks st !! i with
      | Some (Raise e) => finish (Err e) st
      | _ => if forallb is_ret (tasks st) then finish (Ok ()) st else st
      end
  end.

(** Task [i] runs its pending operation with outcome [r] and stops at its next
    one; [None] when the task is over, absent or cannot go on yet. *)
Definition step (i : nat) (r : Resp) (st : Loop) : option Loop :=
  match tasks st !! i with
  | Some t =>
      match code t with
      | Do op k =>
          match reply st op r with
          | Some a =>
              let ok := is_ok a in
              Some (gather_wakeup i
                      (mkLoop (this st) (heap st)
                         (sem_after op ok (sem_value st))
                         (pool_after op ok (pool_out st))
                         (<[i := task_after op ok (k a) t]> (tasks st))
                         (main st)))
          | None => None
          end
      | _ => None
      end
  | None => None
  end.

(** A schedule: which task runs next and how its operation ends. *)
Fixpoint run (sched : list (nat * Resp)) (st : Loop) : option Loop :=
  match sched with
  | [] => Some st
  | (i, r) :: sched' =>
      match step i r st with
      | Some st' => run sched' st'
      | None => None
      end
  end.

Inductive reaches : Loop -> Loop -> Prop :=
| reaches_refl st : reaches st st
| reaches_step i r st st' st'' :
    step i r st = Some st' -> reaches st' st'' -> reaches st st''.

(** ** [execute] *)

(** [handle_csv_bulk_insert] up to the [await]: the semaphore is made once
    ([asyncio.Semaphore] rejects a negative value), then one call of the
    decorated [bulk_load] per range, all on that semaphore and on [self.pool];
    [gather] turns what the calls returned into tasks (and rejects [None]). *)
Fixpoint make_tasks (partition_ranges : list (Z * Z)) (table_name col_names : string)
    : result (list Task) :=
  match partition_ranges with
  | [] => Ok []
  | range_ :: rest =>
      match outcome (bulk_load range_ table_name col_names) with
      | Err e => Err e
      | Ok None => Err TypeError
      | Ok (Some c) =>
          match make_tasks rest table_name col_names with
          | Err e => Err e
          | Ok ts => Ok (mkTask c 0 0 [] :: ts)
          end
      end
  end.

Definition handle_csv_bulk_insert (self : BatchInsert) (heap : gmap nat DataFrame)
    (partition_ranges : list (Z * Z)) (col_names : string) : result Loop :=
  if min_conn self <? 0 then Err ValueError
  else
    match make_tasks partition_ranges
            (schema self +:+ "." +:+ table_name self) col_names with
    | Err e => Err e
    | Ok ts => Ok (mkLoop self heap (min_conn self) 0 ts Running)
    end.

(** [if col_names:] holds for a list with at least one name. *)
Definition truthy (col_names : option (list string)) : bool :=
  match col_names with
  | Some (_ :: _) => true
  | _ => false
  end.

(** A reference no data frame of the heap has. *)
Definition new_ref (h : gmap nat DataFrame) : nat := fresh (dom h).

(** How far [execute] gets before it waits: it is over (with its outcome, the
    instance and the heap it leaves), or it waits in [gather]. *)
Inductive Started : Type :=
| Exited (r : result unit) (self' : BatchInsert) (h : gmap nat DataFrame)
    (out : list string)
| Dispatched (st : Loop) (out : list string).

(** [execute] (lines 50 to 69) up to the [await] of line 65.  [d] refers to the
    caller's data frame; [out] is what was printed.  On every way out the
    [finally] clause has cleared [self.data_df].  The decorator [time_it]
    (its module is not among the sources) only measures the call. *)
Definition execute_begin (self : BatchInsert) (h : gmap nat DataFrame) (d : nat)
    (col_names : option (list string)) : Started :=
  match h !! d with
  | None => Exited (Err AttributeError) (set_data_df None self) h []
  | Some df =>
      match get_ranges (nrows df) (batch_size self) with
      | Err e => Exited (Err e) (set_data_df None self) h []
      | Ok partition_ranges =>
          let out :=
            ["Created " +:+ pretty (length partition_ranges) +:+ " partitions!"] in
          match partition_ranges with
          | [] =>
              Exited (Ok ()) (set_data_df None self) h
                (out ++ ["warning: No data found to be inserted!"])
          | _ :: _ =>
              let projected :=
                if truthy col_names
                then match df_project df (default [] col_names) with
                     | Ok df' => Ok (<[new_ref h := df']> h, new_ref h, df')
                     | Err e => Err e
                     end
                else Ok (h, d, df) in
              match projected with
              | Err e => Exited (Err e) (set_data_df None self) h out
              | Ok (h', d', df') =>
                  let col_names :=
                    String.concat ","
                      (if truthy col_names then default [] col_names
                       else columns df') in
                  match handle_csv_bulk_insert (set_data_df (Some d') self) h'
                          partition_ranges col_names with
                  | Err e => Exited (Err e) (set_data_df None self) h' out
                  | Ok st => Dispatched st out
                  end
              end
          end
      end
  end.

(** One whole call of [execute]: its outcome, and the instance and the heap
    it leaves behind. *)
Inductive execute (self : BatchInsert) (h : gmap nat DataFrame) (d : nat)
    (col_names : option (list string))
    : result unit -> BatchInsert -> gmap nat DataFrame -> Prop :=
| execute_exited r self' h' out :
    execute_begin self h d col_names = Exited r self' h' out ->
    execute self h d col_names r self' h'
| execute_gathered st0 out st r :
    execute_begin self h d col_names = Dispatched st0 out ->
    reaches st0 st ->
    main st = Finished r ->
    execute self h d col_names r (this st) (heap st).

(** The instance between calls: as [__init__] leaves it, or as a call of
    [execute] that is over leaves it. *)
Inductive idle : BatchInsert -> Prop :=
| idle_init bs t s mn mx : idle (init bs t s mn mx)
| idle_execute self h d col_names r self' h' :
    idle self -> execute self h d col_names r self' h' -> idle self'.

(** ** Properties of coroutines and of loop states *)

(** What a transfer may do while it holds [p] permits and [l] connections:
    ask for a permit only when it holds nothing, ask for a connection only
    under its permit and with the timeout of 60, talk to the database only
    under both, give back the connection before the permit. *)
Definition op_allowed (op : Op) (p l : nat) : Prop :=
  match op with
  | SemAcquire => p = 0%nat /\ l = 0%nat
  | SemRelease => p = 1%nat /\ l = 0%nat
  | PoolConnection timeout => timeout = 60 /\ p = 1%nat /\ l = 0%nat
  | PoolPutConn => p = 1%nat /\ l = 1%nat
  | CursorEnter | CursorExit | CopyEnter _ | CopyWrite _ _ | CopyExit
  | ReadDataDf => p = 1%nat /\ l = 1%nat
  | PoolOpen _ | PoolClose => False
  end.

(** Whatever the outcomes of its operations, the rest of the coroutine keeps
    to [op_allowed] and is over only with no permit and no connection held. *)
Fixpoint disciplined {R : Type} (c : Coro R) (p l : nat) : Prop :=
  match c with
  | Ret _ => p = 0%nat /\ l = 0%nat
  | Raise _ => p = 0%nat /\ l = 0%nat
  | Do op k =>
      op_allowed op p l /\
      forall a : result (answer op),
        disciplined (k a) (permits_after op (is_ok a) p) (leases_after op (is_ok a) l)
  end.

(** The permits held by all the tasks together. *)
Definition held_permits (st : Loop) : nat := sum_list_with permits (tasks st).

(** The connections held by all the tasks together. *)
Definition held_leases (st : Loop) : nat := sum_list_with leases (tasks st).

(** The outcomes the read of [self.data_df] can have while the instance holds
    either nothing or the frame [df]. *)
Definition reads (df : DataFrame) (op : Op) : result (answer op) -> Prop :=
  match op return result (answer op) -> Prop with
  | ReadDataDf => fun a => a = Ok None \/ a = Ok (Some df)
  | _ => fun _ => True
  end.

(** With [s] already sent, the rest of the coroutine sends nothing but
    [expected], at most once, and returns only after having sent it. *)
Fixpoint sends_once (df : DataFrame) (expected : string * string)
    (c : Coro unit) (s : list (string * string)) : Prop :=
  match c with
  | Ret _ => s = [expected]
  | Raise _ => s = [] \/ s = [expected]
  | Do op k =>
      (s = [] \/ s = [expected]) /\
      forall a : result (answer op),
        reads df op a -> sends_once df expected (k a) (sent_after op (is_ok a) s)
  end.

(** What the transfer of a range sends: the statement for the destination and
    the columns, and the records of the rows of the range, in row order. *)
Definition transfer_of (table_name col_names : string) (df : DataFrame)
    (range_ : Z * Z) : string * string :=
  (copy_query table_name col_names,
   String.concat ""
     (map csv_line
        (take (Z.to_nat (range_.2 - range_.1)) (drop (Z.to_nat range_.1) (rows df))))).

(** The frame the transfers read: the caller's frame, or a new frame with the
    requested columns when at least one is requested. *)
Definition selected (df : DataFrame) (col_names : option (list string))
    : result DataFrame :=
  if truthy col_names then df_project df (default [] col_names) else Ok df.

(** ** Sample data *)

Definition sample_df : DataFrame :=
  mkDataFrame ["id"; "name"; "note"]
    [["1"; "ann"; "a,b"]; ["2"; "bob"; ""]; ["3"; "cy"; "x"];
     ["4"; "dee"; "y"]; ["5"; "eve"; "z"]].

Definition empty_df : DataFrame := mkDataFrame ["id"; "name"; "note"] [].

Definition sample_heap : gmap nat DataFrame :=
  {[ 0%nat := sample_df; 1%nat := empty_df ]}.

Definition sample_self : BatchInsert := init 2 "people" "public" 2 4.

(** The dispatch of [sample_df] with the columns [id] and [name]. *)
Definition sample_loop : Loop :=
  match execute_begin sample_self sample_heap 0 (Some ["id"; "name"]) with
  | Dispatched st _ => st
  | Exited _ _ _ _ => mkLoop sample_self sample_heap 0 0 [] Running
  end.

(** Task [i] runs to its end with every operation succeeding. *)
Definition whole_task (i : nat) : list (nat * Resp) := replicate 10 (i, ROk).


(** ** Invariants of a dispatch *)

(** The semaphore counter is never negative, the permits held and the permits
    left add up to [min_conn], and every task keeps to the discipline of
    [disciplined] from what it holds. *)
Definition resources_ok (st : Loop) : Prop :=
  0 <= sem_value st /\
  sem_value st + Z.of_nat (held_permits st) = min_conn (this st) /\
  Forall (fun t => disciplined (code t) (permits t) (leases t)) (tasks st).

(** While [execute] waits, the instance holds the reference [d]; once it is
    over, the instance holds nothing.  The other fields and the heap are as
    at the start of the dispatch. *)
Definition holds_dataset (self : BatchInsert) (h : gmap nat DataFrame) (d : nat)
    (st : Loop) : Prop :=
  heap st = h /\
  match main st with
  | Running => this st = set_data_df (Some d) self
  | Finished _ => this st = set_data_df None self
  end.

(** How the caller's state follows the tasks: while it waits no task has
    raised; it returns only when every task has returned; it raises only an
    exception that a task has raised. *)
Definition gathered (st : Loop) : Prop :=
  match main st with
  | Running => forall i t e, tasks st !! i = Some t -> code t ≠ Raise e
  | Finished (Ok _) => forall i t, tasks st !! i = Some t -> is_ret t = true
  | Finished (Err e) => exists i t, tasks st !! i = Some t /\ code t = Raise e
  end.

(** Task by task and range by range: each task sends the transfer of its
    range, at most once. *)
Definition transfers (table_name col_names : string) (df : DataFrame)
    (partition_ranges : list (Z * Z)) (st : Loop) : Prop :=
  Forall2
    (fun t range_ =>
       sends_once df (transfer_of table_name col_names df range_) (code t) (sent t))
    (tasks st) partition_ranges.

(** The destination of every transfer of an instance: schema and table. *)
Definition destination (self : BatchInsert) : string :=
  schema self +:+ "." +:+ table_name self.

(** The tasks of a dispatch as they are launched: one per range, each at the
    start of the body of [bulk_load], holding nothing. *)
Definition launched (self : BatchInsert) (df : DataFrame)
    (partition_ranges : list (Z * Z)) : list Task :=
  map (fun range_ =>
         mkTask (bulk_load_body range_ (destination self)
                   (String.concat "," (columns df))) 0 0 [])
      partition_ranges.

(** A schedule in which the copy channel refuses the first transfer of
    [sample_loop] while the second transfer is under way: the first task takes
    its permit, its connection and its cursor; the second does the same and
    waits for its copy to open; the first opens its copy, reads the frame,
    and its write is refused; it then leaves its four blocks. *)
Definition failing_schedule : list (nat * Resp) :=
  [(0, ROk); (0, ROk); (0, ROk); (1, ROk); (1, ROk); (1, ROk); (0, ROk); (0, ROk);
   (0, RErr TransferProtocolError); (0, ROk); (0, ROk); (0, ROk); (0, ROk)]%nat.

Definition sample_failed : Loop :=
  default sample_loop (run failing_schedule sample_loop).

(** A schedule in which the three transfers of [sample_loop] succeed, the
    first two side by side. *)
Definition complete_schedule : list (nat * Resp) :=
  [(0, ROk); (1, ROk)]%nat ++ replicate 9 (1%nat, ROk)
    ++ replicate 9 (0%nat, ROk) ++ whole_task 2.

Definition sample_completed : Loop :=
  default sample_loop (run complete_schedule sample_loop).


(** ** Further properties of coroutines and of loop states *)


(** The error left after an operation: its own error if it failed (a read of
    [self.data_df] that finds [None] fails with [TypeError] at the subscript),
    the error left before otherwise. *)
Definition error_after (op : Op) : result (answer op) -> option Exn -> option Exn :=
  match op return result (answer op) -> option Exn -> option Exn with
  | ReadDataDf =>
      fun a last =>
        match a with
        | Ok None => Some TypeError
        | Ok (Some _) => last
        | Err e => Some e
        end
  | _ => fun a last => match a with Ok _ => last | Err e => Some e end
  end.

(** The rest of the coroutine returns when no error is left, and otherwise
    raises the error left by the last operation that failed. *)
Fixpoint raises_last_error (c : Coro unit) (last : option Exn) : Prop :=
  match c with
  | Ret _ => last = None
  | Raise e => last = Some e
  | Do op k => forall a : result (answer op),
      raises_last_error (k a) (error_after op a last)
  end.




(** The outcome of an operation that succeeds while the instance holds [df]. *)
Definition ok_answer (df : DataFrame) (op : Op) : result (answer op) :=
  match op return result (answer op) with
  | ReadDataDf => Ok (Some df)
  | SemAcquire => Ok ()
  | SemRelease => Ok ()
  | PoolConnection _ => Ok ()
  | PoolPutConn => Ok ()
  | CursorEnter => Ok ()
  | CursorExit => Ok ()
  | CopyEnter _ => Ok ()
  | CopyWrite _ _ => Ok ()
  | CopyExit => Ok ()
  | PoolOpen _ => Ok ()
  | PoolClose => Ok ()
  end.

(** The rest of the coroutine returns when all its operations succeed. *)
Fixpoint succeeds (df : DataFrame) (c : Coro unit) : Prop :=
  match c with
  | Ret _ => True
  | Raise _ => False
  | Do op k => succeeds df (k (ok_answer df op))
  end.

(** A task at the start of a transfer, or a task that has returned holding
    nothing. *)
Definition ready_or_done (df : DataFrame) (t : Task) : Prop :=
  permits t = 0%nat /\ leases t = 0%nat /\
  disciplined (code t) 0 0 /\ succeeds df (code t).

(** The instance of the sample with no permit to give. *)
Definition blocked_self : BatchInsert := init 2 "people" "public" 0 4.

Definition blocked_loop : Loop :=
  match execute_begin blocked_self sample_heap 0 None with
  | Dispatched st _ => st
  | Exited _ _ _ _ => mkLoop blocked_self sample_heap 0 0 [] Running
  end.

(** The first transfer of [blocked_loop] is cancelled while it waits for a
    permit. *)
Definition blocked_cancelled : Loop :=
  default blocked_loop (run [(0%nat, RErr CancelledError)] blocked_loop).

(** After the failure of [sample_failed], the third transfer starts, finds no
    data frame and leaves its blocks. *)
Definition stale_schedule : list (nat * Resp) := replicate 9 (2%nat, ROk).

Definition sample_stale : Loop :=
  default sample_failed (run stale_schedule sample_failed).


Definition stale_task_after : Task :=
  default (mkTask (Ret ()) 0 0 []) (tasks sample_stale !! 2%nat).

(** A dispatch on a semaphore without permits: the counter is 0 and every
    task is still at the start of its transfer or has raised there. *)
Definition waits_for_permit (table_name col_names : string) (st : Loop) : Prop :=
  sem_value st = 0 /\
  Forall
    (fun t =>
       (exists range_, t = mkTask (bulk_load_body range_ table_name col_names) 0 0 []) \/
       (exists e, t = mkTask (Raise e) 0 0 []))
    (tasks st).
(** * Theorems *)

(** ** The partitioner *)

Lemma ranges_from_done fuel start total_rows batch_size :
  total_rows <= start -> ranges_from fuel start total_rows batch_size = [].
Proof.
  intros Hge. destruct fuel as [|fuel]; simpl; [done|].
  destruct (Z.ltb_spec start total_rows); [lia | done].
Qed.

Lemma ranges_from_tiles fuel : forall start total_rows batch_size,
  0 < batch_size -> start <= total_rows ->
  total_rows - start <= Z.of_nat fuel ->
  tiles start total_rows (ranges_from fuel start total_rows batch_size).
Proof.
  induction fuel as [|fuel IH]; intros start total_rows batch_size Hbs Hle Hfuel.
  - assert (start = total_rows) as -> by lia. simpl. constructor.
  - simpl. destruct (Z.ltb_spec start total_rows) as [Hlt|Hge].
    + destruct (Z.le_gt_cases total_rows (start + batch_size)) as [Hlast|Hmore].
      * rewrite Z.min_r by lia. rewrite ranges_from_done by lia.
        constructor; [lia | constructor].
      * rewrite Z.min_l by lia. constructor; [lia|].
        apply IH; lia.
    + assert (start = total_rows) as -> by lia. constructor.
Qed.

Lemma ranges_from_lengths fuel : forall start total_rows batch_size,
  0 < batch_size ->
  batch_lengths batch_size (ranges_from fuel start total_rows batch_size).
Proof.
  induction fuel as [|fuel IH]; intros start total_rows batch_size Hbs; [done|].
  simpl. destruct (Z.ltb_spec start total_rows) as [Hlt|Hge]; [|done].
  specialize (IH (start + batch_size) total_rows batch_size Hbs).
  destruct (ranges_from fuel (start + batch_size) total_rows batch_size)
    as [|r rs] eqn:Hrest.
  - simpl. lia.
  - assert (start + batch_size < total_rows) as Hmore.
    { destruct (Z.lt_ge_cases (start + batch_size) total_rows) as [|Hge]; [done|].
      rewrite ranges_from_done in Hrest by lia. discriminate. }
    rewrite Z.min_l by lia. simpl. split; [lia | exact IH].
Qed.

Lemma tiles_le a b rs : tiles a b rs -> a <= b.
Proof. induction 1; lia. Qed.

Lemma tiles_elem a b rs r : tiles a b rs -> r ∈ rs -> a <= r.1 /\ r.1 < r.2 /\ r.2 <= b.
Proof.
  induction 1 as [a|a e b rs Hlt Ht IH]; intros Hin.
  - by apply elem_of_nil in Hin.
  - apply elem_of_cons in Hin as [->|Hin].
    + simpl. apply tiles_le in Ht. lia.
    + specialize (IH Hin). lia.
Qed.

Lemma tiles_cover a b rs :
  tiles a b rs -> forall k, a <= k < b <-> exists r, r ∈ rs /\ in_range k r.
Proof.
  induction 1 as [a|a e b rs Hlt Ht IH]; intros k.
  - split; [lia|]. intros (r & Hin & _). by apply elem_of_nil in Hin.
  - split.
    + intros Hk. destruct (Z.lt_ge_cases k e) as [Hke|Hke].
      * exists (a, e). split; [left | unfold in_range; simpl; lia].
      * destruct (proj1 (IH k)) as (r & Hin & Hr); [lia|].
        exists r. split; [by right | done].
    + intros (r & Hin & Hr). apply elem_of_cons in Hin as [->|Hin].
      * unfold in_range in Hr. simpl in Hr. apply tiles_le in Ht. lia.
      * pose proof (proj2 (IH k) (ex_intro _ r (conj Hin Hr))). lia.
Qed.

Lemma tiles_ordered a b rs :
  tiles a b rs -> forall i j r1 r2,
    (i < j)%nat -> rs !! i = Some r1 -> rs !! j = Some r2 -> r1.2 <= r2.1.
Proof.
  induction 1 as [a|a e b rs Hlt Ht IH]; intros i j r1 r2 Hij H1 H2; [done|].
  destruct j as [|j]; [lia|]. simpl in H2.
  destruct i as [|i].
  - simpl in H1. injection H1 as <-. simpl.
    apply list_elem_of_lookup_2 in H2.
    pose proof (tiles_elem _ _ _ _ Ht H2). lia.
  - simpl in H1. apply (IH i j); [lia | done | done].
Qed.

Lemma tiles_disjoint a b rs :
  tiles a b rs -> forall i j r1 r2,
    i ≠ j -> rs !! i = Some r1 -> rs !! j = Some r2 -> disjoint_ranges r1 r2.
Proof.
  intros Ht i j r1 r2 Hne H1 H2 k [Hk1 Hk2].
  destruct (Nat.lt_total i j) as [Hlt|[Heq|Hgt]]; [|done|].
  - pose proof (tiles_ordered _ _ _ Ht _ _ _ _ Hlt H1 H2). lia.
  - pose proof (tiles_ordered _ _ _ Ht _ _ _ _ Hgt H2 H1). lia.
Qed.

Lemma get_ranges_tiles total_rows batch_size rs :
  0 <= total_rows -> get_ranges total_rows batch_size = Ok rs ->
  0 < batch_size /\ tiles 0 total_rows rs /\ batch_lengths batch_size rs.
Proof.
  unfold get_ranges. intros Hn.
  destruct (Z.leb_spec batch_size 0) as [|Hbs]; [discriminate|].
  intros [= <-]. split; [done|]. split.
  - apply ranges_from_tiles; lia.
  - by apply ranges_from_lengths.
Qed.

(** C5: for [total_rows >= 0] and [batch_size > 0] the partitioner returns
    ranges in order, each starting where the previous one ends, from 0 up to
    [total_rows], of length [batch_size] except for a possibly shorter last
    one; they are pairwise disjoint and an index lies in one of them exactly
    when it lies in [0, total_rows).  For [batch_size <= 0] it fails with
    [InvalidArgument]. *)
Theorem get_ranges_partition (total_rows batch_size : Z) :
  (batch_size <= 0 -> get_ranges total_rows batch_size = Err InvalidArgument) /\
  (0 <= total_rows -> 0 < batch_size ->
   exists rs,
     get_ranges total_rows batch_size = Ok rs /\
     tiles 0 total_rows rs /\
     batch_lengths batch_size rs /\
     (forall i j r1 r2, i ≠ j -> rs !! i = Some r1 -> rs !! j = Some r2 ->
        disjoint_ranges r1 r2) /\
     (forall k, 0 <= k < total_rows <-> exists r, r ∈ rs /\ in_range k r)).
Proof.
  split.
  - intros Hbs. unfold get_ranges.
    destruct (Z.leb_spec batch_size 0); [done | lia].
  - intros Hn Hbs.
    destruct (get_ranges total_rows batch_size) as [rs|e] eqn:Hget.
    + destruct (get_ranges_tiles _ _ _ Hn Hget) as (_ & Ht & Hl).
      exists rs. split; [done|]. split; [done|]. split; [done|]. split.
      * by apply (tiles_disjoint 0 total_rows).
      * by apply tiles_cover.
    + unfold get_ranges in Hget.
      destruct (Z.leb_spec batch_size 0); [lia | discriminate].
Qed.

Lemma get_ranges_partition_witness :
  (0 <= 250 /\ 0 < 100) /\
  exists rs,
    get_ranges 250 100 = Ok rs /\
    tiles 0 250 rs /\
    batch_lengths 100 rs /\
    (forall i j r1 r2, i ≠ j -> rs !! i = Some r1 -> rs !! j = Some r2 ->
       disjoint_ranges r1 r2) /\
    (forall k, 0 <= k < 250 <-> exists r, r ∈ rs /\ in_range k r).
Proof.
  split; [lia|].
  apply (proj2 (get_ranges_partition 250 100)); lia.
Defined.

Example get_ranges_250_100 :
  get_ranges 250 100 = Ok [(0, 100); (100, 200); (200, 250)].
Proof. reflexivity. Qed.

(** ** One transfer *)

(** Walks through a coroutine, one outcome of one operation at a time. *)
Ltac walk :=
  repeat first
    [ progress (cbn [disciplined sends_once bind finally perform permits_after
                     leases_after sent_after is_ok op_allowed reads])
    | match goal with
      | |- _ /\ _ => split
      | |- forall a : result _, _ => intros [?|?]
      | |- _ = _ => reflexivity
      end ].

Lemma bulk_load_body_disciplined range_ table_name col_names :
  disciplined (bulk_load_body range_ table_name col_names) 0 0.
Proof.
  unfold bulk_load_body, async_with. walk.
  all: try match goal with a : answer ReadDataDf |- _ => destruct a end; walk.
Qed.

(** C3: a transfer attempt starts by asking for a permit and, once it has it,
    asks the pool for a connection with a timeout of 60; when the permit is
    not obtained it raises with nothing held, and when the connection is not
    obtained (the pool's timeout error, or any other) it gives the permit back
    and raises that error.  Whatever the outcomes of its operations (success,
    failure or cancellation at any of them) it works on the database only
    while it holds both, gives the connection back before the permit, and is
    over (returned or raised) only with neither held. *)
Theorem bulk_load_releases_lease_and_permit (range_ : Z * Z)
    (table_name col_names : string) :
  (exists k,
     bulk_load_body range_ table_name col_names = Do SemAcquire k /\
     (forall e, k (Err e) = Raise e) /\
     exists k',
       k (Ok ()) = Do (PoolConnection 60) k' /\
       forall e, exists k'',
         k' (Err e) = Do SemRelease k'' /\ k'' (Ok ()) = Raise e) /\
  disciplined (bulk_load_body range_ table_name col_names) 0 0.
Proof.
  split; [|apply bulk_load_body_disciplined].
  unfold bulk_load_body, async_with. cbn [bind perform].
  eexists. split; [reflexivity|]. split; [reflexivity|].
  cbn [bind finally perform].
  eexists. split; [reflexivity|]. intros e.
  cbn [bind finally perform].
  eexists. split; reflexivity.
Qed.

Lemma py_slice_take_drop {A : Type} (l : list A) (a b : Z) :
  0 <= a -> a <= b -> b <= Z.of_nat (length l) ->
  py_slice l a b = take (Z.to_nat (b - a)) (drop (Z.to_nat a) l).
Proof.
  intros Ha Hab Hb. unfold py_slice, slice_bound.
  destruct (Z.ltb_spec a 0); [lia|]. destruct (Z.ltb_spec b 0); [lia|].
  rewrite !Z.min_l by lia. done.
Qed.

Ltac walk_sends :=
  repeat first
    [ progress (cbn [sends_once bind finally perform sent_after is_ok reads app])
    | match goal with
      | |- _ /\ _ => split
      | |- forall a : result _, _ => intros [?|?]
      | |- True -> _ => intros _
      | |- _ \/ _ -> _ => intros [[=]|[=]]; subst
      | |- [] = [] \/ _ => left; reflexivity
      | |- _ \/ ?x = ?x => right; reflexivity
      | |- _ = _ => reflexivity
      end ].

Lemma bulk_load_body_sends_once range_ table_name col_names df :
  sends_once df
    (copy_query table_name col_names, to_csv (df_slice df range_.1 range_.2))
    (bulk_load_body range_ table_name col_names) [].
Proof. unfold bulk_load_body, async_with. walk_sends. Qed.

(** ** Steps of the event loop *)

Lemma step_inv i r st st' :
  step i r st = Some st' ->
  exists t op k a,
    tasks st !! i = Some t /\ code t = Do op k /\ reply st op r = Some a /\
    st' = gather_wakeup i
            (mkLoop (this st) (heap st)
               (sem_after op (is_ok a) (sem_value st))
               (pool_after op (is_ok a) (pool_out st))
               (<[i := task_after op (is_ok a) (k a) t]> (tasks st))
               (main st)).
Proof.
  unfold step. intros H.
  destruct (tasks st !! i) as [t|] eqn:Ht; [|done].
  destruct (code t) as [| |op k] eqn:Hc; [done|done|].
  destruct (reply st op r) as [a|] eqn:Hr; [|done].
  injection H as <-. by exists t, op, k, a.
Qed.

Lemma gather_wakeup_cases i st :
  gather_wakeup i st = st \/
  exists r, main st = Running /\ gather_wakeup i st = finish r st.
Proof.
  unfold gather_wakeup. destruct (main st); [|by left].
  destruct (code <$> tasks st !! i) as [[| |]|].
  - destruct (forallb is_ret (tasks st)); [right; by eexists | by left].
  - right; by eexists.
  - destruct (forallb is_ret (tasks st)); [right; by eexists | by left].
  - destruct (forallb is_ret (tasks st)); [right; by eexists | by left].
Qed.

Lemma gather_wakeup_tasks i st : tasks (gather_wakeup i st) = tasks st.
Proof. destruct (gather_wakeup_cases i st) as [->|(r & _ & ->)]; done. Qed.

Lemma gather_wakeup_heap i st : heap (gather_wakeup i st) = heap st.
Proof. destruct (gather_wakeup_cases i st) as [->|(r & _ & ->)]; done. Qed.

Lemma gather_wakeup_sem i st : sem_value (gather_wakeup i st) = sem_value st.
Proof. destruct (gather_wakeup_cases i st) as [->|(r & _ & ->)]; done. Qed.

Lemma gather_wakeup_min_conn i st :
  min_conn (this (gather_wakeup i st)) = min_conn (this st).
Proof. destruct (gather_wakeup_cases i st) as [->|(r & _ & ->)]; done. Qed.

(** A property kept by every step holds all along a run. *)
Lemma reaches_invariant (P : Loop -> Prop) :
  (forall i r st st', P st -> step i r st = Some st' -> P st') ->
  forall st st', reaches st st' -> P st -> P st'.
Proof.
  intros Hstep st st' Hreach. induction Hreach as [|i r st st' st'' Hs _ IH]; [done|].
  intros HP. apply IH. by apply (Hstep i r st).
Qed.

Lemma reaches_trans st1 st2 st3 : reaches st1 st2 -> reaches st2 st3 -> reaches st1 st3.
Proof.
  induction 1 as [|i r st st' st'' Hs _ IH]; [done|].
  intros H3. eapply reaches_step; [exact Hs | by apply IH].
Qed.

Lemma run_reaches sched : forall st st', run sched st = Some st' -> reaches st st'.
Proof.
  induction sched as [|[i r] sched IH]; intros st st' Hrun; simpl in Hrun.
  - injection Hrun as <-. constructor.
  - destruct (step i r st) as [st1|] eqn:Hs; [|done].
    eapply reaches_step; [exact Hs | by apply IH].
Qed.

Lemma sum_list_insert {A : Type} (f : A -> nat) (l : list A) (i : nat) (x y : A) :
  l !! i = Some x ->
  (sum_list_with f (<[i := y]> l) + f x = sum_list_with f l + f y)%nat.
Proof.
  revert i. induction l as [|z l IH]; intros i Hi; [done|].
  destruct i as [|i]; simpl in Hi.
  - injection Hi as ->. simpl. lia.
  - specialize (IH i Hi). simpl. lia.
Qed.

(** ** Permits *)

Lemma resources_ok_step i r st st' :
  resources_ok st -> step i r st = Some st' -> resources_ok st'.
Proof.
  intros (Hsem & Hsum & Hall) Hstep.
  apply step_inv in Hstep as (t & op & k & a & Ht & Hc & Hr & ->).
  unfold resources_ok, held_permits.
  rewrite gather_wakeup_sem, gather_wakeup_tasks, gather_wakeup_min_conn. simpl.
  pose proof (Forall_lookup_1 _ _ _ _ Hall Ht) as Hd.
  simpl in Hd. rewrite Hc in Hd. destruct Hd as [Hop Hk]. specialize (Hk a).
  pose proof (sum_list_insert permits (tasks st) i t
                (task_after op (is_ok a) (k a) t) Ht) as Hins.
  simpl in Hins. unfold held_permits in Hsum.
  assert (0 <= sem_after op (is_ok a) (sem_value st) /\
          sem_after op (is_ok a) (sem_value st)
            + Z.of_nat (permits_after op (is_ok a) (permits t))
          = sem_value st + Z.of_nat (permits t)) as [Hsem' Hbal].
  { destruct op; simpl in *; try lia.
    destruct r as [|e]; simpl in Hr.
    - destruct (Z.ltb_spec 0 (sem_value st)); [|done].
      injection Hr as <-. simpl. lia.
    - injection Hr as <-. simpl. lia. }
  split; [done|]. split; [lia|].
  apply Forall_insert; [done|]. exact Hk.
Qed.

Lemma disciplined_final {R : Type} (c : Coro R) p l :
  disciplined c p l -> (forall op k, c ≠ Do op k) -> p = 0%nat /\ l = 0%nat.
Proof. destruct c; simpl; [done|done|]. intros _ H. by destruct (H op k). Qed.

Lemma disciplined_bounds {R : Type} (c : Coro R) p l :
  disciplined c p l -> (l <= p)%nat /\ (p <= 1)%nat.
Proof.
  destruct c as [| |op k]; simpl.
  - lia.
  - lia.
  - intros [Hop _]. destruct op; simpl in Hop; lia.
Qed.

(** ** The start of a dispatch *)

Lemma bulk_load_call range_ table_name col_names :
  bulk_load range_ table_name col_names
  = mkRetryRun (Ok (Some (bulk_load_body range_ table_name col_names))) 1 [].
Proof. reflexivity. Qed.

Lemma make_tasks_ok rs table_name col_names :
  make_tasks rs table_name col_names
  = Ok (map (fun r => mkTask (bulk_load_body r table_name col_names) 0 0 []) rs).
Proof.
  induction rs as [|r rs IH]; [done|].
  simpl. rewrite IH. done.
Qed.

Lemma df_project_columns df names df' :
  df_project df names = Ok df' ->
  columns df' = names /\ length (rows df') = length (rows df).
Proof.
  unfold df_project. destruct (column_indices names (columns df)); [|done].
  intros [= <-]. simpl. by rewrite length_map.
Qed.

Lemma selected_rows df col_names df' :
  selected df col_names = Ok df' -> length (rows df') = length (rows df).
Proof.
  unfold selected. destruct (truthy col_names).
  - intros H. by apply df_project_columns in H as [_ ?].
  - by intros [= <-].
Qed.

(** What [execute] has done when it reaches the [await]. *)
Lemma execute_begin_dispatched self h d col_names st0 out :
  execute_begin self h d col_names = Dispatched st0 out ->
  exists df df' rs d' h',
    h !! d = Some df /\
    get_ranges (nrows df) (batch_size self) = Ok rs /\ rs ≠ [] /\
    selected df col_names = Ok df' /\
    (truthy col_names = false /\ d' = d /\ h' = h \/
     truthy col_names = true /\ d' = new_ref h /\ h' = <[new_ref h := df']> h) /\
    h' !! d' = Some df' /\
    0 <= min_conn self /\
    st0 = mkLoop (set_data_df (Some d') self) h' (min_conn self) 0
            (launched self df' rs) Running.
Proof.
  unfold execute_begin, selected. intros H.
  destruct (h !! d) as [df|] eqn:Hd; [|done].
  destruct (get_ranges (nrows df) (batch_size self)) as [rs|e] eqn:Hr; [|done].
  destruct rs as [|r0 rs]; [done|].
  destruct (truthy col_names) eqn:Htr.
  - destruct (df_project df (default [] col_names)) as [df'|e] eqn:Hp; [|done].
    unfold handle_csv_bulk_insert in H. simpl in H.
    destruct (Z.ltb_spec (min_conn self) 0); [done|].
    rewrite make_tasks_ok in H.
    injection H as <- <-.
    exists df, df', (r0 :: rs), (new_ref h), (<[new_ref h := df']> h).
    apply df_project_columns in Hp as Hc. destruct Hc as [Hc _].
    repeat split; try done.
    + by right.
    + apply lookup_insert_eq.
    + unfold launched, destination. by rewrite Hc.
  - unfold handle_csv_bulk_insert in H. simpl in H.
    destruct (Z.ltb_spec (min_conn self) 0); [done|].
    rewrite make_tasks_ok in H.
    injection H as <- <-.
    exists df, df, (r0 :: rs), d, h.
    repeat split; try done. by left.
Qed.

Lemma holds_dataset_step self h d i r st st' :
  holds_dataset self h d st -> step i r st = Some st' -> holds_dataset self h d st'.
Proof.
  intros [Hh Hm] Hstep.
  apply step_inv in Hstep as (t & op & k & a & Ht & Hc & Hr & ->).
  match goal with |- holds_dataset _ _ _ (gather_wakeup i ?s) =>
    destruct (gather_wakeup_cases i s) as [->|(x & Hrun & ->)] end.
  - split; done.
  - simpl in Hrun. rewrite Hrun in Hm. split; [done|].
    simpl. rewrite Hm. done.
Qed.

Lemma holds_dataset_reaches self h d st0 st :
  holds_dataset self h d st0 -> reaches st0 st -> holds_dataset self h d st.
Proof.
  intros H0 Hreach. revert H0.
  apply (reaches_invariant (holds_dataset self h d)); [|done].
  intros i r s s' Hs Hstep. by apply (holds_dataset_step _ _ _ i r s).
Qed.

Lemma holds_dataset_min_conn self h d st :
  holds_dataset self h d st -> min_conn (this st) = min_conn self.
Proof. intros [_ H]. destruct (main st); by rewrite H. Qed.

Lemma resources_ok_reaches st0 st :
  resources_ok st0 -> reaches st0 st -> resources_ok st.
Proof.
  intros H0 Hreach. revert H0.
  apply (reaches_invariant resources_ok); [|done].
  intros i r s s' Hs Hstep. by apply (resources_ok_step i r s).
Qed.

Lemma launched_holds_nothing self df rs :
  sum_list_with permits (launched self df rs) = 0%nat /\
  Forall (fun t => disciplined (code t) (permits t) (leases t)) (launched self df rs).
Proof.
  unfold launched. induction rs as [|r rs [IHs IHd]]; [done|].
  split; [done|]. constructor; [|done]. apply bulk_load_body_disciplined.
Qed.

Lemma sum_list_with_le {A : Type} (f g : A -> nat) (l : list A) :
  Forall (fun x => (f x <= g x)%nat) l -> (sum_list_with f l <= sum_list_with g l)%nat.
Proof. induction 1; simpl; lia. Qed.

(** C2: in a dispatch, the semaphore is made once with the value [min_conn] and
    every task of the dispatch works on it; at every moment its counter is not
    negative and, added to the permits the tasks hold, gives [min_conn]: the
    permits held never exceed [min_conn] (nor do the connections held, which
    are held under a permit only). *)
Theorem permits_never_exceed_min_conn (self : BatchInsert)
    (h : gmap nat DataFrame) (d : nat) (col_names : option (list string))
    (st0 : Loop) (out : list string) (st : Loop) :
  execute_begin self h d col_names = Dispatched st0 out ->
  reaches st0 st ->
  sem_value st0 = min_conn self /\
  held_permits st0 = 0%nat /\
  (exists df rs,
     h !! d = Some df /\
     get_ranges (nrows df) (batch_size self) = Ok rs /\
     length (tasks st0) = length rs) /\
  0 <= sem_value st /\
  sem_value st + Z.of_nat (held_permits st) = min_conn self /\
  Z.of_nat (held_permits st) <= min_conn self /\
  (held_leases st <= held_permits st)%nat.
Proof.
  intros Hbegin Hreach.
  apply execute_begin_dispatched in Hbegin
    as (df & df' & rs & d' & h' & Hd & Hr & Hne & Hsel & Hdh & Hlook & Hmin & ->).
  destruct (launched_holds_nothing self df' rs) as [Hzero Hdisc].
  assert (resources_ok st) as (Hsem & Hsum & Hall).
  { eapply resources_ok_reaches; [|exact Hreach].
    unfold resources_ok, held_permits. simpl. rewrite Hzero.
    split; [done|]. split; [lia | done]. }
  assert (holds_dataset self h' d' st) as Hds.
  { eapply holds_dataset_reaches; [|exact Hreach]. by split. }
  rewrite (holds_dataset_min_conn _ _ _ _ Hds) in Hsum.
  split; [done|]. split; [exact Hzero|]. split.
  { exists df, rs. split; [done|]. split; [done|].
    simpl. unfold launched. by rewrite length_map. }
  split; [done|]. split; [done|]. split; [lia|].
  unfold held_leases, held_permits. apply sum_list_with_le.
  eapply Forall_impl; [exact Hall|].
  intros t Ht. simpl in Ht. apply disciplined_bounds in Ht. lia.
Qed.

(** A task that is over holds neither a permit nor a connection, at every
    moment of a dispatch. *)
Lemma finished_task_holds_nothing self h d col_names st0 out st i t :
  execute_begin self h d col_names = Dispatched st0 out ->
  reaches st0 st ->
  tasks st !! i = Some t -> is_final t = true ->
  permits t = 0%nat /\ leases t = 0%nat.
Proof.
  intros Hbegin Hreach Hi Hfinal.
  apply execute_begin_dispatched in Hbegin
    as (df & df' & rs & d' & h' & Hd & Hr & Hne & Hsel & Hdh & Hlook & Hmin & ->).
  destruct (launched_holds_nothing self df' rs) as [Hzero Hdisc].
  assert (resources_ok st) as (_ & _ & Hall).
  { eapply resources_ok_reaches; [|exact Hreach].
    unfold resources_ok, held_permits. simpl. rewrite Hzero.
    split; [done|]. split; [lia | done]. }
  pose proof (Forall_lookup_1 _ _ _ _ Hall Hi) as Ht. simpl in Ht.
  apply (disciplined_final _ _ _ Ht).
  intros op k Hc. unfold is_final in Hfinal. by rewrite Hc in Hfinal.
Qed.

(** The pool does not hand out a connection in time: the third transfer of
    [sample_loop] gives its permit back and raises the pool's error. *)
Example lease_timeout_releases_permit :
  exists st t,
    run [(2, ROk); (2, RErr PoolTimeout); (2, ROk)]%nat sample_loop = Some st /\
    tasks st !! 2%nat = Some t /\
    code t = Raise PoolTimeout /\ permits t = 0%nat /\ leases t = 0%nat /\
    sem_value st = 2 /\ pool_out st = 0 /\
    main st = Finished (Err PoolTimeout).
Proof.
  vm_compute. eexists. eexists. split; [reflexivity|].
  split; [reflexivity|]. split; [reflexivity|]. split; [reflexivity|].
  split; [reflexivity|]. split; [reflexivity|]. split; reflexivity.
Qed.

(** The third transfer is cancelled while it waits for the copy channel: it
    leaves the copy, the cursor, the connection and the permit, in that
    order, and ends with the cancellation. *)
Example cancellation_releases_lease_and_permit :
  exists st t,
    run [(2, ROk); (2, ROk); (2, ROk); (2, ROk); (2, ROk);
         (2, RErr CancelledError); (2, ROk); (2, ROk); (2, ROk); (2, ROk)]%nat
      sample_loop = Some st /\
    tasks st !! 2%nat = Some t /\
    code t = Raise CancelledError /\ permits t = 0%nat /\ leases t = 0%nat /\
    sent t = [] /\ sem_value st = 2 /\ pool_out st = 0.
Proof.
  vm_compute. eexists. eexists. split; [reflexivity|].
  split; [reflexivity|]. split; [reflexivity|]. split; [reflexivity|].
  split; [reflexivity|]. split; [reflexivity|]. split; reflexivity.
Qed.

(** ** The caller and its tasks *)

Lemma gathered_step i r st st' :
  gathered st -> step i r st = Some st' -> gathered st'.
Proof.
  intros Hg Hstep.
  apply step_inv in Hstep as (t & op & k & a & Ht & Hc & Hr & ->).
  pose proof (lookup_lt_Some _ _ _ Ht) as Hlen.
  set (t' := task_after op (is_ok a) (k a) t).
  assert (<[i := t']> (tasks st) !! i = Some t') as Hi
    by (by apply list_lookup_insert_eq).
  unfold gathered in Hg. unfold gather_wakeup. simpl.
  destruct (main st) as [|[[]|e]] eqn:Hm.
  - rewrite Hi. simpl.
    destruct (k a) as [[]|e|op' k'] eqn:Hk.
    + destruct (forallb is_ret (<[i := t']> (tasks st))) eqn:Hall.
      * unfold gathered. simpl. intros j tj Hj.
        apply (proj1 (forallb_forall _ _) Hall).
        apply list_elem_of_In. by eapply list_elem_of_lookup_2.
      * unfold gathered. simpl. rewrite ?Hm. intros j tj e Hj.
        destruct (decide (j = i)) as [->|Hne].
        -- rewrite Hi in Hj. injection Hj as <-. subst t'. simpl. rewrite ?Hk. done.
        -- rewrite list_lookup_insert_ne in Hj by done. by eapply Hg.
    + unfold gathered. simpl. exists i, t'. split; [done|]. simpl. done.
    + destruct (forallb is_ret (<[i := t']> (tasks st))) eqn:Hall.
      * unfold gathered. simpl. intros j tj Hj.
        apply (proj1 (forallb_forall _ _) Hall).
        apply list_elem_of_In. by eapply list_elem_of_lookup_2.
      * unfold gathered. simpl. rewrite ?Hm. intros j tj e Hj.
        destruct (decide (j = i)) as [->|Hne].
        -- rewrite Hi in Hj. injection Hj as <-. subst t'. simpl. rewrite ?Hk. done.
        -- rewrite list_lookup_insert_ne in Hj by done. by eapply Hg.
  - specialize (Hg i t Ht). unfold is_ret in Hg. by rewrite Hc in Hg.
  - destruct Hg as (j & tj & Hj & Hcj).
    unfold gathered. simpl. rewrite ?Hm.
    exists j, tj. split; [|done].
    rewrite list_lookup_insert_ne; [done|].
    intros ->. rewrite Ht in Hj. injection Hj as ->. by rewrite Hc in Hcj.
Qed.

Lemma gathered_reaches st0 st : gathered st0 -> reaches st0 st -> gathered st.
Proof.
  intros H0 Hreach. revert H0.
  apply (reaches_invariant gathered); [|done].
  intros i r s s' Hs Hstep. by apply (gathered_step i r s).
Qed.

Lemma launched_not_raised self df rs i t e :
  launched self df rs !! i = Some t -> code t ≠ Raise e.
Proof.
  unfold launched. rewrite list_lookup_fmap.
  destruct (rs !! i); [|done]. intros [= <-]. done.
Qed.




Lemma sample_dispatch :
  execute_begin sample_self sample_heap 0 (Some ["id"; "name"])
  = Dispatched sample_loop ["Created 3 partitions!"].
Proof. vm_compute. reflexivity. Qed.

Lemma sample_failed_reached : reaches sample_loop sample_failed.
Proof. apply (run_reaches failing_schedule). vm_compute. reflexivity. Qed.





(** ** What the transfers send *)

Lemma reply_reads self h d df st op r a :
  holds_dataset self h d st -> h !! d = Some df ->
  reply st op r = Some a -> reads df op a.
Proof.
  intros [Hh Hm] Hd Hr. destruct op; simpl; try done.
  simpl in Hr. injection Hr as <-. rewrite Hh.
  destruct (main st); rewrite Hm; simpl.
  - right. by rewrite Hd.
  - by left.
Qed.

Lemma transfers_step self h d df table_name col_names rs i r st st' :
  holds_dataset self h d st -> h !! d = Some df ->
  transfers table_name col_names df rs st ->
  step i r st = Some st' ->
  transfers table_name col_names df rs st'.
Proof.
  intros Hds Hd Htr Hstep.
  pose proof (reply_reads self h d df st) as Hreads.
  apply step_inv in Hstep as (t & op & k & a & Ht & Hc & Hr & ->).
  unfold transfers in *. rewrite gather_wakeup_tasks. simpl.
  destruct (Forall2_lookup_l _ _ _ _ _ Htr Ht) as (range_ & Hrange & Hsend).
  rewrite <- (list_insert_id rs i range_ Hrange).
  apply Forall2_insert; [done|].
  simpl. rewrite Hc in Hsend. destruct Hsend as [_ Hk].
  apply Hk. by eapply Hreads.
Qed.

Lemma transfers_reaches self h d df table_name col_names rs st0 st :
  holds_dataset self h d st0 -> h !! d = Some df ->
  transfers table_name col_names df rs st0 ->
  reaches st0 st ->
  transfers table_name col_names df rs st.
Proof.
  intros Hds Hd Htr Hreach.
  assert (holds_dataset self h d st /\ transfers table_name col_names df rs st)
    as [_ ?]; [|done].
  revert Hreach. generalize (conj Hds Htr). clear Hds Htr.
  intros H0 Hreach. revert H0.
  apply (reaches_invariant
           (fun s => holds_dataset self h d s /\ transfers table_name col_names df rs s));
    [|done].
  intros j x s s' [Hs1 Hs2] Hstep. split.
  - by apply (holds_dataset_step _ _ _ j x s).
  - by apply (transfers_step self h d df _ _ _ j x s).
Qed.


Lemma launched_transfers self df total rs :
  tiles 0 total rs -> total <= Z.of_nat (length (rows df)) ->
  Forall2
    (fun t range_ =>
       sends_once df
         (transfer_of (destination self) (String.concat "," (columns df)) df range_)
         (code t) (sent t))
    (launched self df rs) rs.
Proof.
  intros Ht Hlen. unfold launched. apply Forall2_fmap_l.
  apply Forall_Forall2_diag. apply Forall_forall. intros r Hin. simpl.
  destruct (tiles_elem _ _ _ _ Ht Hin) as (H1 & H2 & H3).
  unfold transfer_of.
  rewrite <- (py_slice_take_drop (rows df) r.1 r.2) by lia.
  apply bulk_load_body_sends_once.
Qed.



(** What holds all along a dispatch, put together. *)
Lemma dispatch_invariants self h d col_names st0 out st :
  execute_begin self h d col_names = Dispatched st0 out ->
  reaches st0 st ->
  exists df df' rs d' h',
    h !! d = Some df /\
    selected df col_names = Ok df' /\
    get_ranges (nrows df) (batch_size self) = Ok rs /\
    tiles 0 (nrows df) rs /\
    length (rows df') = length (rows df) /\
    (truthy col_names = false /\ d' = d /\ h' = h \/
     truthy col_names = true /\ d' = new_ref h /\ h' = <[new_ref h := df']> h) /\
    holds_dataset self h' d' st /\
    gathered st /\
    transfers (destination self) (String.concat "," (columns df')) df' rs st.
Proof.
  intros Hbegin Hreach.
  apply execute_begin_dispatched in Hbegin
    as (df & df' & rs & d' & h' & Hd & Hr & Hne & Hsel & Hdh & Hlook & Hmin & ->).
  assert (0 <= nrows df) as Hn by (unfold nrows; lia).
  destruct (get_ranges_tiles _ _ _ Hn Hr) as (Hbs & Ht & _).
  pose proof (selected_rows _ _ _ Hsel) as Hlen.
  set (st0 := mkLoop (set_data_df (Some d') self) h' (min_conn self) 0
                (launched self df' rs) Running) in *.
  assert (holds_dataset self h' d' st0) as Hds0 by (by split).
  exists df, df', rs, d', h'.
  split; [done|]. split; [done|]. split; [done|]. split; [done|].
  split; [done|]. split; [done|]. split; [|split].
  - by eapply holds_dataset_reaches.
  - eapply gathered_reaches; [|exact Hreach].
    unfold gathered. simpl. intros i t e. apply launched_not_raised.
  - eapply (transfers_reaches self h' d' df'); [exact Hds0 | done | | exact Hreach].
    unfold transfers. simpl. apply (launched_transfers self df' (nrows df)); [done|].
    unfold nrows. lia.
Qed.




(** ** The dataset reference *)

Lemma new_ref_fresh (h : gmap nat DataFrame) : h !! new_ref h = None.
Proof. apply not_elem_of_dom. unfold new_ref. apply is_fresh. Qed.

Lemma heap_grows (h : gmap nat DataFrame) df' l df :
  h !! l = Some df -> <[new_ref h := df']> h !! l = Some df.
Proof.
  intros Hl. rewrite lookup_insert_ne; [done|].
  intros <-. rewrite new_ref_fresh in Hl. done.
Qed.

(** What [execute] leaves when it is over before the [await]. *)
Lemma execute_begin_exited self h d col_names r self' h' out :
  execute_begin self h d col_names = Exited r self' h' out ->
  self' = set_data_df None self /\
  (h' = h \/ exists df', h' = <[new_ref h := df']> h).
Proof.
  unfold execute_begin. intros H.
  destruct (h !! d) as [df|]; [|injection H as <- <- <- <-; auto].
  destruct (get_ranges (nrows df) (batch_size self)) as [rs|e];
    [|injection H as <- <- <- <-; auto].
  destruct rs as [|r0 rs]; [injection H as <- <- <- <-; auto|].
  destruct (truthy col_names).
  - destruct (df_project df (default [] col_names)) as [df'|e];
      [|injection H as <- <- <- <-; auto].
    destruct (handle_csv_bulk_insert _ _ _ _); [done|].
    injection H as <- <- <- <-. split; [done|]. right. by eexists.
  - destruct (handle_csv_bulk_insert _ _ _ _); [done|].
    injection H as <- <- <- <-. auto.
Qed.

(** Any call of [execute] that is over has cleared the reference and has left
    every data frame of the heap as it was. *)
Lemma execute_exit self h d col_names r self' h' :
  execute self h d col_names r self' h' ->
  self' = set_data_df None self /\
  forall l df, h !! l = Some df -> h' !! l = Some df.
Proof.
  intros [r0 s0 h0 out Hb | st0 out st r0 Hb Hreach Hm].
  - apply execute_begin_exited in Hb as [-> [->|[df' ->]]]; [done|].
    split; [done|]. intros l df. apply heap_grows.
  - destruct (dispatch_invariants _ _ _ _ _ _ _ Hb Hreach)
      as (df & df' & rs & d' & h1 & _ & _ & _ & _ & _ & Hdh & [Hh Hthis] & _).
    rewrite Hm in Hthis. rewrite Hthis, Hh. split; [done|].
    destruct Hdh as [(_ & _ & ->)|(_ & _ & ->)]; [done|].
    intros l df0. apply heap_grows.
Qed.

Lemma idle_holds_nothing self : idle self -> data_df self = None.
Proof.
  intros [bs t s mn mx | s0 h d c r s' h' _ Hex]; [done|].
  by apply execute_exit in Hex as [-> _].
Qed.

(** C8: between calls the instance holds no dataset: none when a call of
    [execute] starts, and none when it is over, whether it returned or raised.
    During the call the instance holds nothing, the caller's dataset of this
    call, or the frame newly made from it for the requested columns: never a
    dataset of an earlier call.  No data frame of the heap is changed, neither
    during the dispatch nor by the call as a whole. *)
Theorem execute_clears_dataset_reference (self : BatchInsert)
    (h : gmap nat DataFrame) (d : nat) (col_names : option (list string)) :
  idle self ->
  data_df self = None /\
  (forall r self' h',
     execute self h d col_names r self' h' ->
     data_df self' = None /\ idle self' /\
     forall l df, h !! l = Some df -> h' !! l = Some df) /\
  (forall st0 out st,
     execute_begin self h d col_names = Dispatched st0 out ->
     reaches st0 st ->
     (data_df (this st) = None \/
      data_df (this st) = Some d \/
      data_df (this st) = Some (new_ref h) /\ h !! new_ref h = None) /\
     (forall x, main st = Finished x -> data_df (this st) = None) /\
     forall l df, h !! l = Some df -> heap st !! l = Some df).
Proof.
  intros Hidle. split; [by apply idle_holds_nothing|]. split.
  - intros r self' h' Hex. split; [|split].
    + by apply execute_exit in Hex as [-> _].
    + by eapply idle_execute.
    + by apply execute_exit in Hex as [_ ?].
  - intros st0 out st Hb Hreach.
    destruct (dispatch_invariants _ _ _ _ _ _ _ Hb Hreach)
      as (df & df' & rs & d' & h1 & _ & _ & _ & _ & _ & Hdh & [Hh Hthis] & _).
    split; [|split].
    + destruct (main st); rewrite Hthis; simpl; [|by left].
      destruct Hdh as [(_ & -> & _)|(_ & -> & _)]; [by right; left|].
      right; right. split; [done | apply new_ref_fresh].
    + intros x Hm. rewrite Hm in Hthis. by rewrite Hthis.
    + rewrite Hh. destruct Hdh as [(_ & _ & ->)|(_ & _ & ->)]; [done|].
      intros l df0. apply heap_grows.
Qed.

(** ** Empty datasets and empty column lists *)

Lemma get_ranges_zero batch_size : 0 < batch_size -> get_ranges 0 batch_size = Ok [].
Proof.
  intros Hbs. unfold get_ranges.
  destruct (Z.leb_spec batch_size 0); [lia | done].
Qed.

(** C9: for a dataset without rows (and a positive batch size) the partitioner
    gives no range, and [execute] is over at once: it returns without an
    error, after its two messages, without making the semaphore or any task,
    and leaves the instance cleared and the heap as it was. *)
Theorem execute_empty_dataset_is_noop (self : BatchInsert)
    (h : gmap nat DataFrame) (d : nat) (col_names : option (list string))
    (df : DataFrame) :
  h !! d = Some df ->
  rows df = [] ->
  0 < batch_size self ->
  get_ranges (nrows df) (batch_size self) = Ok [] /\
  execute_begin self h d col_names
  = Exited (Ok ()) (set_data_df None self) h
      ["Created 0 partitions!"; "warning: No data found to be inserted!"] /\
  (forall st0 out, execute_begin self h d col_names ≠ Dispatched st0 out) /\
  execute self h d col_names (Ok ()) (set_data_df None self) h /\
  (forall r self' h',
     execute self h d col_names r self' h' ->
     r = Ok () /\ self' = set_data_df None self /\ h' = h).
Proof.
  intros Hd Hrows Hbs.
  assert (get_ranges (nrows df) (batch_size self) = Ok []) as Hr.
  { unfold nrows. rewrite Hrows. by apply get_ranges_zero. }
  assert (execute_begin self h d col_names
          = Exited (Ok ()) (set_data_df None self) h
              ["Created 0 partitions!"; "warning: No data found to be inserted!"])
    as Hb.
  { unfold execute_begin. rewrite Hd, Hr. reflexivity. }
  split; [done|]. split; [done|]. split; [|split].
  - intros st0 out. by rewrite Hb.
  - by eapply execute_exited.
  - intros r self' h' [r0 s0 h0 out0 Hb' | st0 out0 st r0 Hb' _ _].
    + rewrite Hb in Hb'. by injection Hb' as <- <- <- _.
    + by rewrite Hb in Hb'.
Qed.

(** C10: [execute] with an empty list of column names does what it does with
    no column selection: the two calls are the same up to the [await], and
    when they dispatch, the instance holds the caller's own data frame (no
    projected frame is made) and every transfer names all the columns of that
    frame in their declared order. *)
Theorem execute_empty_column_list_is_no_selection (self : BatchInsert)
    (h : gmap nat DataFrame) (d : nat) :
  execute_begin self h d (Some []) = execute_begin self h d None /\
  (forall r self' h',
     execute self h d (Some []) r self' h' <-> execute self h d None r self' h') /\
  (forall st0 out,
     execute_begin self h d (Some []) = Dispatched st0 out ->
     data_df (this st0) = Some d /\ heap st0 = h /\
     exists df rs,
       h !! d = Some df /\
       get_ranges (nrows df) (batch_size self) = Ok rs /\
       tasks st0
       = map (fun range_ =>
                mkTask (bulk_load_body range_
                          (schema self +:+ "." +:+ table_name self)
                          (String.concat "," (columns df))) 0 0 [])
           rs).
Proof.
  assert (execute_begin self h d (Some []) = execute_begin self h d None) as Heq
    by reflexivity.
  split; [done|]. split.
  - intros r self' h'. split.
    + intros [r0 s0 h0 out Hb | st0 out st r0 Hb Hreach Hm].
      * rewrite Heq in Hb. by eapply execute_exited.
      * rewrite Heq in Hb. by eapply execute_gathered.
    + intros [r0 s0 h0 out Hb | st0 out st r0 Hb Hreach Hm].
      * rewrite <- Heq in Hb. by eapply execute_exited.
      * rewrite <- Heq in Hb. by eapply execute_gathered.
  - intros st0 out Hb.
    apply execute_begin_dispatched in Hb
      as (df & df' & rs & d' & h' & Hd & Hr & Hne & Hsel & Hdh & Hlook & Hmin & ->).
    unfold selected in Hsel. simpl in Hsel. injection Hsel as <-.
    assert (d' = d /\ h' = h) as [-> ->].
    { destruct Hdh as [(_ & ? & ?)|(Htr & _)]; [done | discriminate Htr]. }
    simpl. split; [done|]. split; [done|]. by exists df, rs.
Qed.

(** ** Retries *)

(** On a function whose calls raise, the policy of the three decorators does
    what its parameters say: at most 3 calls, a sleep of 2 before each new
    call, and the outcome of the last call as it is. *)
Lemma retry_3_2_1 {A : Type} (f : nat -> result A) :
  let run := retry is_Exception 3 2 1 f in
  (1 <= calls run <= 3)%nat /\
  sleeps run = replicate (calls run - 1) 2 /\
  match outcome run with
  | Ok (Some a) => f (calls run - 1)%nat = Ok a
  | Ok None => False
  | Err e => f (calls run - 1)%nat = Err e /\
             (is_Exception e = true -> calls run = 3%nat)
  end.
Proof.
  unfold retry. simpl.
  destruct (f 0%nat) as [a0|e0] eqn:H0; simpl;
    [repeat split; simpl; (lia || done)|].
  destruct (is_Exception e0) eqn:E0; simpl;
    [|repeat split; simpl; (lia || congruence || done)].
  destruct (f 1%nat) as [a1|e1] eqn:H1; simpl;
    [repeat split; simpl; (lia || done)|].
  destruct (is_Exception e1) eqn:E1; simpl;
    [|repeat split; simpl; (lia || congruence || done)].
  destruct (f 2%nat) as [a2|e2] eqn:H2; simpl;
    [repeat split; simpl; (lia || done)|].
  destruct (is_Exception e2) eqn:E2; simpl;
    repeat split; simpl; (lia || congruence || done).
Qed.

Example retry_recovers_plain_function :
  retry is_Exception 3 2 1
    (fun n => if (n <? 2)%nat then Err TransferProtocolError else Ok n)
  = mkRetryRun (Ok (Some 2%nat)) 3 [2; 2].
Proof. reflexivity. Qed.

Example retry_gives_up_on_plain_function :
  retry is_Exception 3 2 1 (fun _ : nat => @Err unit PoolTimeout)
  = mkRetryRun (Err PoolTimeout) 3 [2; 2].
Proof. reflexivity. Qed.

(** C4, at the failing input: a call of a decorated method calls the wrapped
    [async def] once, sleeps never, and returns the coroutine of the body as
    it is; an error of the body is raised when the coroutine is awaited,
    outside the decorator.  In [sample_failed] the copy channel has refused
    the first transfer once: the transfer has raised that error without a
    second attempt, and [execute] with it. *)
Theorem decorated_coroutine_runs_once :
  (forall range_ table_name col_names,
     bulk_load range_ table_name col_names
     = mkRetryRun (Ok (Some (bulk_load_body range_ table_name col_names))) 1 []) /\
  open_connection_pool = mkRetryRun (Ok (Some open_connection_pool_body)) 1 [] /\
  close_connection_pool = mkRetryRun (Ok (Some close_connection_pool_body)) 1 [] /\
  (exists k, open_connection_pool_body = Do (PoolOpen true) k /\
             forall e, k (Err e) = Raise e) /\
  (exists k, close_connection_pool_body = Do PoolClose k /\
             forall e, k (Err e) = Raise e) /\
  run failing_schedule sample_loop = Some sample_failed /\
  main sample_failed = Finished (Err TransferProtocolError) /\
  exists t, tasks sample_failed !! 0%nat = Some t /\
            code t = Raise TransferProtocolError /\ sent t = [].
Proof.
  split; [reflexivity|]. split; [reflexivity|]. split; [reflexivity|].
  split; [eexists; split; reflexivity|].
  split; [eexists; split; reflexivity|].
  split; [vm_compute; reflexivity|].
  split; [vm_compute; reflexivity|].
  vm_compute. eexists. split; [reflexivity|]. split; reflexivity.
Qed.

(** ** Instances *)

Lemma permits_never_exceed_min_conn_witness :
  (execute_begin sample_self sample_heap 0 (Some ["id"; "name"])
   = Dispatched sample_loop ["Created 3 partitions!"] /\
   reaches sample_loop sample_failed) /\
  sem_value sample_loop = min_conn sample_self /\
  held_permits sample_loop = 0%nat /\
  (exists df rs,
     sample_heap !! 0%nat = Some df /\
     get_ranges (nrows df) (batch_size sample_self) = Ok rs /\
     length (tasks sample_loop) = length rs) /\
  0 <= sem_value sample_failed /\
  sem_value sample_failed + Z.of_nat (held_permits sample_failed)
  = min_conn sample_self /\
  Z.of_nat (held_permits sample_failed) <= min_conn sample_self /\
  (held_leases sample_failed <= held_permits sample_failed)%nat.
Proof.
  split; [split; [apply sample_dispatch | apply sample_failed_reached]|].
  apply (permits_never_exceed_min_conn sample_self sample_heap 0
           (Some ["id"; "name"]) sample_loop ["Created 3 partitions!"]).
  - apply sample_dispatch.
  - apply sample_failed_reached.
Defined.





(** What the three transfers of [sample_completed] have sent. *)
Example sample_completed_sent :
  let nl := String newline EmptyString in
  let statement :=
    "COPY public.people (id,name) FROM STDIN WITH (FORMAT CSV, DELIMITER ',')" in
  sent <$> tasks sample_completed
  = [[(statement, "1,ann" +:+ nl +:+ "2,bob" +:+ nl)];
     [(statement, "3,cy" +:+ nl +:+ "4,dee" +:+ nl)];
     [(statement, "5,eve" +:+ nl)]].
Proof. vm_compute. reflexivity. Qed.

Lemma execute_clears_dataset_reference_witness :
  idle sample_self /\
  data_df sample_self = None /\
  (forall r self' h',
     execute sample_self sample_heap 0 (Some ["id"; "name"]) r self' h' ->
     data_df self' = None /\ idle self' /\
     forall l df, sample_heap !! l = Some df -> h' !! l = Some df) /\
  (forall st0 out st,
     execute_begin sample_self sample_heap 0 (Some ["id"; "name"])
     = Dispatched st0 out ->
     reaches st0 st ->
     (data_df (this st) = None \/
      data_df (this st) = Some 0%nat \/
      data_df (this st) = Some (new_ref sample_heap) /\
      sample_heap !! new_ref sample_heap = None) /\
     (forall x, main st = Finished x -> data_df (this st) = None) /\
     forall l df, sample_heap !! l = Some df -> heap st !! l = Some df).
Proof.
  split; [apply idle_init|].
  apply (execute_clears_dataset_reference sample_self sample_heap 0
           (Some ["id"; "name"])).
  apply idle_init.
Defined.

Lemma execute_empty_dataset_is_noop_witness :
  (sample_heap !! 1%nat = Some empty_df /\ rows empty_df = [] /\
   0 < batch_size sample_self) /\
  get_ranges (nrows empty_df) (batch_size sample_self) = Ok [] /\
  execute_begin sample_self sample_heap 1 None
  = Exited (Ok ()) (set_data_df None sample_self) sample_heap
      ["Created 0 partitions!"; "warning: No data found to be inserted!"] /\
  (forall st0 out, execute_begin sample_self sample_heap 1 None ≠ Dispatched st0 out) /\
  execute sample_self sample_heap 1 None (Ok ()) (set_data_df None sample_self)
    sample_heap /\
  (forall r self' h',
     execute sample_self sample_heap 1 None r self' h' ->
     r = Ok () /\ self' = set_data_df None sample_self /\ h' = sample_heap).
Proof.
  split; [split; [reflexivity | split; [reflexivity | reflexivity]]|].
  apply (execute_empty_dataset_is_noop sample_self sample_heap 1 None empty_df);
    reflexivity.
Defined.

(** * Further properties *)

(** ** Connections and permits over a whole dispatch *)





(** ** The error of a transfer *)

Ltac walk_errors :=
  repeat first
    [ progress (cbn [raises_last_error bind finally perform error_after])
    | match goal with
      | a : answer ReadDataDf |- _ => destruct a
      | |- forall a : result _, _ => intros [?|?]
      | |- _ = _ => reflexivity
      end ].

(** X2: a transfer returns only when every one of its operations has succeeded
    and it has found the data frame; otherwise it raises the error of the last
    operation that failed: an error raised while a block is left replaces the
    error that made the transfer leave it. *)
Theorem bulk_load_raises_last_error (range_ : Z * Z) (table_name col_names : string) :
  raises_last_error (bulk_load_body range_ table_name col_names) None.
Proof. unfold bulk_load_body, async_with. walk_errors. Qed.

(** The copy channel refuses the write and the cursor fails to close: the
    transfer raises the error of the cursor. *)
Example exit_error_replaces_body_error :
  exists st t,
    run [(2, ROk); (2, ROk); (2, ROk); (2, ROk); (2, ROk);
         (2, RErr TransferProtocolError); (2, ROk); (2, RErr PoolLifecycleError);
         (2, ROk); (2, ROk)]%nat
      sample_loop = Some st /\
    tasks st !! 2%nat = Some t /\ code t = Raise PoolLifecycleError /\
    main st = Finished (Err PoolLifecycleError).
Proof.
  vm_compute. eexists. eexists. split; [reflexivity|].
  split; [reflexivity|]. split; reflexivity.
Qed.

(** ** Column names that are not columns *)

Lemma column_index_none name cols :
  name ∉ cols -> column_index name cols = None.
Proof.
  induction cols as [|c cols IH]; [done|].
  intros Hnot. apply not_elem_of_cons in Hnot as [Hne Hnot]. simpl.
  destruct (String.eqb_spec name c) as [->|_]; [done|].
  by rewrite IH.
Qed.

Lemma column_indices_none names cols name :
  name ∈ names -> name ∉ cols -> column_indices names cols = None.
Proof.
  induction names as [|n names IH]; intros Hin Hnot.
  - by apply elem_of_nil in Hin.
  - apply elem_of_cons in Hin as [<-|Hin]; simpl.
    + by rewrite column_index_none.
    + rewrite IH by done. by destruct (column_index n cols).
Qed.

(** X3: when the dataset has rows to send and one of the requested names is
    not a column of it, [execute] raises [KeyError] before the semaphore and
    the tasks are made: nothing is sent, the instance is left cleared and the
    heap as it was. *)
Theorem execute_missing_column_raises_key_error (self : BatchInsert)
    (h : gmap nat DataFrame) (d : nat) (names : list string) (df : DataFrame)
    (r0 : Z * Z) (rs : list (Z * Z)) (name : string) :
  h !! d = Some df ->
  get_ranges (nrows df) (batch_size self) = Ok (r0 :: rs) ->
  name ∈ names ->
  name ∉ columns df ->
  (exists out,
     execute_begin self h d (Some names)
     = Exited (Err KeyError) (set_data_df None self) h out) /\
  forall r self' h',
    execute self h d (Some names) r self' h' ->
    r = Err KeyError /\ self' = set_data_df None self /\ h' = h.
Proof.
  intros Hd Hr Hin Hnot.
  assert (exists out,
            execute_begin self h d (Some names)
            = Exited (Err KeyError) (set_data_df None self) h out) as [out Hb].
  { unfold execute_begin. rewrite Hd, Hr.
    destruct names as [|n names]; [by apply elem_of_nil in Hin|].
    simpl. unfold df_project.
    rewrite (column_indices_none (n :: names) (columns df) name Hin Hnot).
    by eexists. }
  split; [by exists out|].
  intros r self' h' [r1 s1 h1 out1 Hb' | st0 out1 st r1 Hb' _ _].
  - rewrite Hb in Hb'. by injection Hb' as <- <- <- _.
  - by rewrite Hb in Hb'.
Qed.

Lemma execute_missing_column_raises_key_error_witness :
  (sample_heap !! 0%nat = Some sample_df /\
   get_ranges (nrows sample_df) (batch_size sample_self) = Ok ((0, 2) :: [(2, 4); (4, 5)]) /\
   "age" ∈ ["id"; "age"] /\
   "age" ∉ columns sample_df) /\
  (exists out,
     execute_begin sample_self sample_heap 0 (Some ["id"; "age"])
     = Exited (Err KeyError) (set_data_df None sample_self) sample_heap out) /\
  forall r self' h',
    execute sample_self sample_heap 0 (Some ["id"; "age"]) r self' h' ->
    r = Err KeyError /\ self' = set_data_df None sample_self /\ h' = sample_heap.
Proof.
  assert ("age" ∈ ["id"; "age"]) as Hin by (apply list_elem_of_lookup_2 with 1%nat; reflexivity).
  assert ("age" ∉ columns sample_df) as Hnot.
  { simpl. intros H. repeat (apply elem_of_cons in H as [H|H]; [discriminate H|]).
    by apply elem_of_nil in H. }
  split; [split; [reflexivity | split; [reflexivity | split; [exact Hin | exact Hnot]]]|].
  by apply (execute_missing_column_raises_key_error sample_self sample_heap 0
              ["id"; "age"] sample_df (0, 2) [(2, 4); (4, 5)] "age").
Defined.

(** ** A semaphore without permits *)

Lemma waits_for_permit_step table_name col_names i r st st' :
  waits_for_permit table_name col_names st -> step i r st = Some st' ->
  waits_for_permit table_name col_names st'.
Proof.
  intros [Hsem Hall] Hstep. unfold step in Hstep.
  destruct (tasks st !! i) as [t|] eqn:Ht; [|done].
  destruct (Forall_lookup_1 _ _ _ _ Hall Ht) as [[range_ ->]|[e ->]]; [|done].
  unfold bulk_load_body, async_with in Hstep. cbn [code bind perform] in Hstep.
  destruct r as [|e]; cbn [reply] in Hstep.
  - rewrite Hsem in Hstep. done.
  - injection Hstep as <-. unfold waits_for_permit.
    rewrite gather_wakeup_sem, gather_wakeup_tasks. simpl.
    split; [done|]. apply Forall_insert; [done|]. right. by exists e.
Qed.

(** X4: with [min_conn = 0] the semaphore never has a permit to give: at
    every moment of a dispatch every task holds nothing and has sent nothing,
    none has returned, and [execute] has not returned without an error (it
    waits, or it has raised the error with which a waiting task was
    interrupted). *)
Theorem execute_without_permits_sends_nothing (self : BatchInsert)
    (h : gmap nat DataFrame) (d : nat) (col_names : option (list string))
    (st0 : Loop) (out : list string) (st : Loop) :
  min_conn self = 0 ->
  execute_begin self h d col_names = Dispatched st0 out ->
  reaches st0 st ->
  sem_value st = 0 /\
  main st ≠ Finished (Ok ()) /\
  forall t, t ∈ tasks st ->
    sent t = [] /\ permits t = 0%nat /\ leases t = 0%nat /\ is_ret t = false.
Proof.
  intros Hzero Hbegin Hreach.
  destruct (dispatch_invariants _ _ _ _ _ _ _ Hbegin Hreach)
    as (df & df' & rs & d' & h' & Hd & _ & Hr & _ & _ & _ & _ & Hg & Htr).
  apply execute_begin_dispatched in Hbegin
    as (df1 & df1' & rs1 & d1 & h1 & Hd1 & Hr1 & Hne & _ & _ & _ & _ & ->).
  rewrite Hd in Hd1. injection Hd1 as <-.
  assert (waits_for_permit (destination self) (String.concat "," (columns df1')) st)
    as [Hsem Hall].
  { apply (reaches_invariant
             (waits_for_permit (destination self) (String.concat "," (columns df1'))))
      with (st := mkLoop (set_data_df (Some d1) self) h1 (min_conn self) 0
                    (launched self df1' rs1) Running); [|exact Hreach|].
    - intros i r s s' Hs Hstep. by apply (waits_for_permit_step _ _ i r s).
    - split; [done|]. simpl. unfold launched. apply Forall_fmap.
      apply Forall_forall. intros r _. simpl. left. by exists r. }
  assert (forall t, t ∈ tasks st ->
            sent t = [] /\ permits t = 0%nat /\ leases t = 0%nat /\ is_ret t = false)
    as Htasks.
  { intros t Hin.
    destruct (proj1 (Forall_forall _ _) Hall t Hin) as [[r ->]|[e ->]]; done. }
  split; [done|]. split; [|done].
  intros Hm. unfold gathered in Hg. rewrite Hm in Hg.
  unfold transfers in Htr. apply Forall2_length in Htr.
  destruct (tasks st) as [|t ts] eqn:Hts.
  - simpl in Htr. destruct rs; [|done].
    rewrite Hr in Hr1. injection Hr1 as <-. done.
  - specialize (Hg 0%nat t eq_refl).
    destruct (Htasks t) as (_ & _ & _ & Hret); [left|]. congruence.
Qed.

Lemma blocked_dispatch :
  execute_begin blocked_self sample_heap 0 None
  = Dispatched blocked_loop ["Created 3 partitions!"].
Proof. vm_compute. reflexivity. Qed.

Lemma blocked_cancelled_reached : reaches blocked_loop blocked_cancelled.
Proof.
  apply (run_reaches [(0%nat, RErr CancelledError)]). vm_compute. reflexivity.
Qed.

Lemma execute_without_permits_sends_nothing_witness :
  (min_conn blocked_self = 0 /\
   execute_begin blocked_self sample_heap 0 None
   = Dispatched blocked_loop ["Created 3 partitions!"] /\
   reaches blocked_loop blocked_cancelled) /\
  sem_value blocked_cancelled = 0 /\
  main blocked_cancelled ≠ Finished (Ok ()) /\
  forall t, t ∈ tasks blocked_cancelled ->
    sent t = [] /\ permits t = 0%nat /\ leases t = 0%nat /\ is_ret t = false.
Proof.
  split; [split; [reflexivity | split; [apply blocked_dispatch | apply blocked_cancelled_reached]]|].
  apply (execute_without_permits_sends_nothing blocked_self sample_heap 0 None
           blocked_loop ["Created 3 partitions!"]).
  - reflexivity.
  - apply blocked_dispatch.
  - apply blocked_cancelled_reached.
Defined.

(** ** Transfers left behind *)










(** The transfer left behind in [sample_stale] has ended with the error of the
    subscript of [None]. *)
Example stale_task_raises_type_error :
  tasks sample_stale !! 2%nat = Some stale_task_after /\
  code stale_task_after = Raise TypeError /\
  sent stale_task_after = [] /\
  permits stale_task_after = 0%nat /\ leases stale_task_after = 0%nat.
Proof. vm_compute. repeat split; reflexivity. Qed.

(** ** A dispatch can complete *)

Lemma forallb_is_ret_false ts i t :
  ts !! i = Some t -> is_ret t = false -> forallb is_ret ts = false.
Proof.
  intros Hi Hret. destruct (forallb is_ret ts) eqn:Hall; [|done].
  rewrite <- Hret. symmetry. apply (proj1 (forallb_forall _ _) Hall).
  apply list_elem_of_In. by eapply list_elem_of_lookup_2.
Qed.

Lemma reply_ok_answer self h d df st op p l :
  holds_dataset self h d st -> main st = Running -> h !! d = Some df ->
  op_allowed op p l ->
  1 <= sem_value st + Z.of_nat p ->
  pool_out st - Z.of_nat l < max_conn self ->
  reply st op ROk = Some (ok_answer df op) /\
  is_ok (ok_answer df op) = true /\
  sem_after op true (sem_value st) + Z.of_nat (permits_after op true p)
  = sem_value st + Z.of_nat p /\
  pool_after op true (pool_out st) - Z.of_nat (leases_after op true l)
  = pool_out st - Z.of_nat l.
Proof.
  intros [Hh Hthis] Hm Hd Hop Hsem Hpool. rewrite Hm in Hthis.
  destruct op; simpl in *; try (repeat split; (done || lia)).
  - destruct Hop as [-> ->].
    destruct (Z.ltb_spec 0 (sem_value st)); [|lia]. repeat split; (done || lia).
  - destruct Hop as (_ & -> & ->). rewrite Hthis. simpl.
    destruct (Z.ltb_spec (pool_out st) (max_conn self)); [|lia].
    repeat split; (done || lia).
  - rewrite Hthis, Hh. simpl. rewrite Hd. repeat split; (done || lia).
Qed.

(** A task whose operations all succeed runs to its return while the other
    tasks stand still. *)
Lemma run_alone self h d df (c : Coro unit) :
  forall st i t,
    tasks st !! i = Some t -> code t = c -> is_final t = false ->
    disciplined c (permits t) (leases t) -> succeeds df c ->
    main st = Running -> holds_dataset self h d st -> h !! d = Some df ->
    1 <= sem_value st + Z.of_nat (permits t) ->
    pool_out st - Z.of_nat (leases t) < max_conn self ->
    exists st' s',
      reaches st st' /\
      tasks st' = <[i := mkTask (Ret ()) 0 0 s']> (tasks st) /\
      sem_value st' = sem_value st + Z.of_nat (permits t) /\
      pool_out st' = pool_out st - Z.of_nat (leases t) /\
      heap st' = heap st /\
      if forallb is_ret (tasks st') then main st' = Finished (Ok ())
      else main st' = Running /\ this st' = this st.
Proof.
  induction c as [r|e|op k IH]; intros st i t Hi Hc Hfinal Hdisc Hsucc Hm Hds Hd Hsem Hpool.
  - unfold is_final in Hfinal. by rewrite Hc in Hfinal.
  - unfold is_final in Hfinal. by rewrite Hc in Hfinal.
  - simpl in Hdisc. destruct Hdisc as [Hop Hk].
    destruct (reply_ok_answer self h d df st op _ _ Hds Hm Hd Hop Hsem Hpool)
      as (Hreply & Hok & Hbal & Hpbal).
    set (a := ok_answer df op) in *.
    specialize (Hk a). rewrite Hok in Hk. simpl in Hsucc. fold a in Hsucc.
    set (t1 := task_after op true (k a) t).
    set (s1 := mkLoop (this st) (heap st) (sem_after op true (sem_value st))
                 (pool_after op true (pool_out st)) (<[i := t1]> (tasks st)) Running).
    assert (step i ROk st = Some (gather_wakeup i s1)) as Hstep.
    { unfold step. rewrite Hi, Hc, Hreply, Hok, Hm. done. }
    pose proof (lookup_lt_Some _ _ _ Hi) as Hlen.
    assert (<[i := t1]> (tasks st) !! i = Some t1) as Hi1
      by (by apply list_lookup_insert_eq).
    destruct (k a) as [[]|e|op' k'] eqn:Hka.
    + (* the task has returned *)
      destruct Hk as [Hp0 Hl0].
      exists (gather_wakeup i s1), (sent_after op true (sent t)).
      split; [eapply reaches_step; [exact Hstep | constructor]|].
      rewrite gather_wakeup_tasks, gather_wakeup_sem, gather_wakeup_heap.
      assert (t1 = mkTask (Ret ()) 0 0 (sent_after op true (sent t))) as Ht1.
      { subst t1. unfold task_after. by rewrite Hp0, Hl0. }
      split; [simpl; by rewrite Ht1|].
      split; [simpl; lia|].
      split.
      { match goal with |- pool_out (gather_wakeup i ?s) = _ =>
          destruct (gather_wakeup_cases i s) as [->|(x & _ & ->)] end; simpl; lia. }
      split; [done|].
      assert (code t1 = Ret ()) as Hct by (by rewrite Ht1).
      unfold gather_wakeup. simpl. rewrite Hi1.
      cbn [fmap option_fmap option_map]. rewrite Hct.
      destruct (forallb is_ret (<[i:=t1]> (tasks st))); simpl; done.
    + done.
    + (* the task goes on *)
      assert (is_ret t1 = false) as Hnr by (subst t1; unfold is_ret; simpl; done).
      assert (gather_wakeup i s1 = s1) as Hsame.
      { unfold gather_wakeup. simpl. rewrite Hi1.
        rewrite (forallb_is_ret_false _ i _ Hi1 Hnr).
        subst t1. simpl. done. }
      rewrite Hsame in Hstep.
      destruct (IH a s1 i t1) as (st' & s' & Hreach & Htasks & Hsem' & Hpool' & Hheap & Hmain).
      * exact Hi1.
      * subst t1. simpl. by rewrite Hka.
      * subst t1. unfold is_final. simpl. done.
      * subst t1. simpl. rewrite Hka. exact Hk.
      * rewrite Hka. exact Hsucc.
      * done.
      * destruct Hds as [Hh Hthis]. rewrite Hm in Hthis. by split.
      * exact Hd.
      * subst t1. simpl. lia.
      * subst t1. simpl. lia.
      * exists st', s'.
        split; [eapply reaches_step; [exact Hstep | exact Hreach]|].
        split; [rewrite Htasks; simpl; apply list_insert_insert_eq|].
        split; [rewrite Hsem'; subst t1; simpl; lia|].
        split; [rewrite Hpool'; subst t1; simpl; lia|].
        split; [by rewrite Hheap|].
        destruct (forallb is_ret (tasks st')); [done|].
        destruct Hmain as [? ->]. done.
Qed.

Lemma bulk_load_body_succeeds df range_ table_name col_names :
  succeeds df (bulk_load_body range_ table_name col_names).
Proof. unfold bulk_load_body, async_with. simpl. exact I. Qed.

Lemma forallb_is_ret_app finished todo :
  Forall (fun t => is_ret t = true) finished ->
  forallb is_ret (finished ++ todo)%list = forallb is_ret todo.
Proof.
  induction 1 as [|t finished Ht _ IH]; [done|]. simpl. by rewrite Ht, IH.
Qed.

(** The tasks that have not started can be run one after the other, each to
    its return; after the last one [execute] has returned. *)
Lemma run_all self h d df (todo : list Task) :
  forall finished st,
    tasks st = (finished ++ todo)%list -> todo ≠ [] ->
    Forall (fun t => is_ret t = true) finished ->
    Forall (fun t => is_final t = false /\ ready_or_done df t) todo ->
    main st = Running -> holds_dataset self h d st -> h !! d = Some df ->
    1 <= sem_value st -> pool_out st < max_conn self ->
    exists st', reaches st st' /\ main st' = Finished (Ok ()).
Proof.
  induction todo as [|t todo IH];
    intros finished st Htasks Hne Hdone Htodo Hm Hds Hd Hsem Hpool; [done|].
  apply Forall_cons in Htodo as [(Hfinal & Hp & Hl & Hdisc & Hsucc) Htodo].
  assert (tasks st !! length finished = Some t) as Hi.
  { rewrite Htasks. apply list_lookup_middle. done. }
  destruct (run_alone self h d df (code t) st (length finished) t)
    as (st1 & s1 & Hreach & Htasks1 & Hsem1 & Hpool1 & Hheap1 & Hmain1);
    try done.
  { by rewrite Hp, Hl. }
  { rewrite Hp. lia. }
  { rewrite Hl. lia. }
  rewrite Htasks in Htasks1.
  replace (length finished) with (length finished + 0)%nat in Htasks1 by lia.
  rewrite insert_app_r in Htasks1. simpl in Htasks1.
  rewrite Htasks1 in Hmain1.
  rewrite forallb_is_ret_app in Hmain1 by done.
  destruct todo as [|t2 todo].
  - simpl in Hmain1. by exists st1.
  - assert (is_ret t2 = false) as Hnr.
    { apply Forall_cons in Htodo as [[Hf2 _] _].
      unfold is_final in Hf2. unfold is_ret. by destruct (code t2). }
    simpl in Hmain1. rewrite Hnr in Hmain1. simpl in Hmain1.
    destruct Hmain1 as [Hm1 Hthis1].
    destruct (IH (finished ++ [mkTask (Ret ()) 0 0 s1])%list st1) as (st' & Hreach' & Hfin).
    + rewrite Htasks1. by rewrite <- app_assoc.
    + done.
    + apply Forall_app. split; [done|]. by constructor.
    + done.
    + done.
    + destruct Hds as [Hh Hthis]. rewrite Hm in Hthis.
      split; [by rewrite Hheap1|]. rewrite Hm1, Hthis1. done.
    + done.
    + rewrite Hsem1, Hp. lia.
    + rewrite Hpool1, Hl. lia.
    + exists st'. split; [by eapply reaches_trans | done].
Qed.

(** X6: with at least one permit ([min_conn >= 1]) and a pool of at least one
    connection, no dispatch is stuck from the start: its transfers can run
    one after the other, each to its return, and [execute] then returns
    without an error. *)
Theorem dispatch_can_complete (self : BatchInsert)
    (h : gmap nat DataFrame) (d : nat) (col_names : option (list string))
    (st0 : Loop) (out : list string) :
  execute_begin self h d col_names = Dispatched st0 out ->
  1 <= min_conn self ->
  1 <= max_conn self ->
  exists st,
    reaches st0 st /\ main st = Finished (Ok ()) /\
    execute self h d col_names (Ok ()) (this st) (heap st).
Proof.
  intros Hbegin Hmin Hmax.
  pose proof Hbegin as Hb.
  apply execute_begin_dispatched in Hb
    as (df & df' & rs & d' & h' & Hd & Hr & Hne & Hsel & Hdh & Hlook & _ & ->).
  destruct (run_all self h' d' df' (launched self df' rs) []
              (mkLoop (set_data_df (Some d') self) h' (min_conn self) 0
                 (launched self df' rs) Running))
    as (st & Hreach & Hm); try done.
  - unfold launched. by destruct rs.
  - unfold launched. apply Forall_fmap. apply Forall_forall. intros r _. simpl.
    split; [done|]. split; [done|]. split; [done|]. split.
    + apply bulk_load_body_disciplined.
    + apply bulk_load_body_succeeds.
  - simpl. lia.
  - exists st. split; [done|]. split; [done|].
    by eapply execute_gathered.
Qed.

Lemma dispatch_can_complete_witness :
  (execute_begin sample_self sample_heap 0 (Some ["id"; "name"])
   = Dispatched sample_loop ["Created 3 partitions!"] /\
   1 <= min_conn sample_self /\ 1 <= max_conn sample_self) /\
  exists st,
    reaches sample_loop st /\ main st = Finished (Ok ()) /\
    execute sample_self sample_heap 0 (Some ["id"; "name"]) (Ok ())
      (this st) (heap st).
Proof.
  split; [split; [apply sample_dispatch | split; [vm_compute; discriminate | vm_compute; discriminate]]|].
  apply (dispatch_can_complete sample_self sample_heap 0 (Some ["id"; "name"])
           sample_loop ["Created 3 partitions!"]).
  - apply sample_dispatch.
  - vm_compute. discriminate.
  - vm_compute. discriminate.
Defined.

(** ** Selecting every column *)

Lemma column_index_lookup cols : forall i name,
  NoDup cols -> cols !! i = Some name -> column_index name cols = Some i.
Proof.
  induction cols as [|c cols IH]; intros i name Hnd Hi; [done|].
  apply NoDup_cons in Hnd as [Hc Hnd]. simpl.
  destruct i as [|i]; simpl in Hi.
  - injection Hi as ->. by rewrite String.eqb_refl.
  - destruct (String.eqb_spec name c) as [->|_].
    + exfalso. apply Hc. by eapply list_elem_of_lookup_2.
    + by rewrite (IH i name Hnd Hi).
Qed.

Lemma column_indices_seq cols names : forall k,
  NoDup cols ->
  (forall j name, names !! j = Some name -> cols !! (k + j)%nat = Some name) ->
  column_indices names cols = Some (seq k (length names)).
Proof.
  induction names as [|n names IH]; intros k Hnd Hsub; [done|].
  simpl. rewrite (column_index_lookup cols k n Hnd).
  - rewrite (IH (S k) Hnd); [done|].
    intros j name Hj. replace (S k + j)%nat with (k + S j)%nat by lia.
    by apply Hsub.
  - replace k with (k + 0)%nat at 1 by lia. by apply Hsub.
Qed.

Lemma pick_cells_all (row : list string) :
  pick_cells (seq 0 (length row)) row = row.
Proof.
  unfold pick_cells. induction row as [|x row IH]; [done|].
  simpl. f_equal. rewrite <- seq_shift, map_map. exact IH.
Qed.

Lemma df_project_all_columns df :
  NoDup (columns df) ->
  Forall (fun row => length row = length (columns df)) (rows df) ->
  df_project df (columns df) = Ok df.
Proof.
  intros Hnd Hrows. unfold df_project.
  rewrite (column_indices_seq (columns df) (columns df) 0 Hnd) by done.
  destruct df as [cols rws]. simpl in *. do 2 f_equal.
  induction Hrows as [|row rws Hrow _ IH]; [done|].
  simpl. rewrite <- Hrow at 1. by rewrite pick_cells_all, IH.
Qed.

(** X7: for a frame with distinct column labels and rows as long as its
    header, a call of [execute] that names every column in declared order
    dispatches the same tasks as a call without a selection; but the instance
    then holds a new frame with the same content, where without a selection
    it holds the caller's own frame. *)
Theorem execute_all_columns_is_no_selection (self : BatchInsert)
    (h : gmap nat DataFrame) (d : nat) (df : DataFrame)
    (st1 : Loop) (out : list string) :
  h !! d = Some df ->
  NoDup (columns df) ->
  Forall (fun row => length row = length (columns df)) (rows df) ->
  execute_begin self h d (Some (columns df)) = Dispatched st1 out ->
  exists st2,
    execute_begin self h d None = Dispatched st2 out /\
    tasks st1 = tasks st2 /\
    sem_value st1 = sem_value st2 /\
    data_df (this st2) = Some d /\ heap st2 = h /\
    (columns df ≠ [] ->
     data_df (this st1) = Some (new_ref h) /\
     heap st1 = <[new_ref h := df]> h /\ new_ref h ≠ d).
Proof.
  intros Hd Hnd Hrows Hb1.
  pose proof (df_project_all_columns df Hnd Hrows) as Hproj.
  unfold execute_begin in *. rewrite Hd in *.
  destruct (get_ranges (nrows df) (batch_size self)) as [rs|e]; [|done].
  destruct rs as [|r0 rs]; [done|].
  destruct (columns df) as [|c cols] eqn:Hcols.
  - exists st1. simpl in *.
    destruct (handle_csv_bulk_insert _ _ _ _) as [st|e] eqn:Hh; [|done].
    injection Hb1 as <- <-. unfold handle_csv_bulk_insert in Hh.
    cbn [min_conn set_data_df] in Hh.
    destruct (min_conn self <? 0); [discriminate Hh|].
    rewrite make_tasks_ok in Hh. injection Hh as <-. done.
  - cbn [truthy from_option id] in Hb1. rewrite Hproj in Hb1.
    cbn [truthy from_option id columns]. rewrite ?Hcols in *.
    unfold handle_csv_bulk_insert in *. cbn [min_conn set_data_df schema table_name] in *.
    destruct (min_conn self <? 0); [discriminate Hb1|].
    rewrite make_tasks_ok in *. injection Hb1 as <- <-.
    eexists. split; [reflexivity|]. cbn [tasks sem_value this heap data_df set_data_df].
    split; [done|]. split; [done|]. split; [done|]. split; [done|].
    intros _. split; [done|]. split; [done|].
    intros Heq. pose proof (new_ref_fresh h) as Hf. rewrite Heq, Hd in Hf. done.
Qed.

Lemma execute_all_columns_is_no_selection_witness :
  (sample_heap !! 0%nat = Some sample_df /\
   NoDup (columns sample_df) /\
   Forall (fun row => length row = length (columns sample_df)) (rows sample_df) /\
   execute_begin sample_self sample_heap 0 (Some (columns sample_df))
   = Dispatched
       (mkLoop (set_data_df (Some (new_ref sample_heap)) sample_self)
          (<[new_ref sample_heap := sample_df]> sample_heap) 2 0
          (launched sample_self sample_df [(0, 2); (2, 4); (4, 5)]) Running)
       ["Created 3 partitions!"]) /\
  exists st2,
    execute_begin sample_self sample_heap 0 None
    = Dispatched st2 ["Created 3 partitions!"] /\
    launched sample_self sample_df [(0, 2); (2, 4); (4, 5)] = tasks st2 /\
    2 = sem_value st2 /\
    data_df (this st2) = Some 0%nat /\ heap st2 = sample_heap /\
    (columns sample_df ≠ [] ->
     Some (new_ref sample_heap) = Some (new_ref sample_heap) /\
     <[new_ref sample_heap := sample_df]> sample_heap
     = <[new_ref sample_heap := sample_df]> sample_heap /\
     new_ref sample_heap ≠ 0%nat).
Proof.
  assert (NoDup (columns sample_df)) as Hnd.
  { simpl. repeat (apply NoDup_cons; split;
                   [intros H; repeat (apply elem_of_cons in H as [H|H]; [discriminate H|]);
                    by apply elem_of_nil in H|]).
    apply NoDup_nil. done. }
  assert (Forall (fun row => length row = length (columns sample_df)) (rows sample_df))
    as Hrows by (simpl; repeat constructor).
  assert (execute_begin sample_self sample_heap 0 (Some (columns sample_df))
          = Dispatched
              (mkLoop (set_data_df (Some (new_ref sample_heap)) sample_self)
                 (<[new_ref sample_heap := sample_df]> sample_heap) 2 0
                 (launched sample_self sample_df [(0, 2); (2, 4); (4, 5)]) Running)
              ["Created 3 partitions!"]) as Hb by (vm_compute; reflexivity).
  split; [split; [reflexivity | split; [exact Hnd | split; [exact Hrows | exact Hb]]]|].
  exact (execute_all_columns_is_no_selection sample_self sample_heap 0 sample_df
           _ _ eq_refl Hnd Hrows Hb).
Defined.

(** ** After a successful call *)




